(** * Treemap data: the path tree of [lighthouse-core/audits/treemap-data.js]

    A shallow embedding of [TreemapDataAudit.prepareTreemapNodes] (path
    insertion followed by [collapseAll]) and of
    [TreemapDataAudit.makeRootNodes], with the properties of the trees they
    return.

    Conventions.
    - A JS string is a [string]; one character stands for one UTF-16 code
      unit, so [String.length] is the JS [.length].
    - A JS number holding a byte count is an integer in [Z].
    - An optional field ([unusedBytes], [duplicate], [children]) is an
      [option]: [None] is the absent ([undefined]) field.
    - The object handed to [prepareTreemapNodes] is the list of its
      [Object.entries], in iteration order.
    - The node objects are mutated in place by the source; every node has one
      parent, so the embedding rebuilds the spine that was touched and
      returns the new tree. *)

From Stdlib Require Import List String Ascii ZArith Lia Bool.
From stdpp Require Import gmap strings.
Import ListNotations.
Open Scope string_scope.
Open Scope list_scope.
Open Scope Z_scope.

(** ** Data model *)

(** [SourceData]: a [Node] without [name] and [children]. *)
Record SourceData := mkSourceData {
  sd_resourceBytes : Z;
  sd_unusedBytes : option Z;
  sd_duplicate : option string
}.

#[warning="-register-all"]
Inductive Node := mkNode {
  name : string;
  resourceBytes : Z;
  unusedBytes : option Z;
  duplicate : option string;
  children : option (list Node)
}.

Record RootNodeContainer := mkRootNodeContainer {
  rnc_name : string;
  rnc_node : Node
}.

(** Field updates ([node.f = v]). *)
Definition set_name (v : string) (n : Node) : Node :=
  mkNode v (resourceBytes n) (unusedBytes n) (duplicate n) (children n).
Definition set_resourceBytes (v : Z) (n : Node) : Node :=
  mkNode (name n) v (unusedBytes n) (duplicate n) (children n).
Definition set_unusedBytes (v : option Z) (n : Node) : Node :=
  mkNode (name n) (resourceBytes n) v (duplicate n) (children n).
Definition set_duplicate (v : option string) (n : Node) : Node :=
  mkNode (name n) (resourceBytes n) (unusedBytes n) v (children n).
Definition set_children (v : option (list Node)) (n : Node) : Node :=
  mkNode (name n) (resourceBytes n) (unusedBytes n) (duplicate n) v.

(** The induction principle that reaches the children. *)
Section NodeInd.
Variable P : Node -> Prop.
Hypothesis Hleaf : forall nm rb ub dup, P (mkNode nm rb ub dup None).
Hypothesis Hkids : forall nm rb ub dup kids,
  Forall P kids -> P (mkNode nm rb ub dup (Some kids)).

Fixpoint Node_ind' (n : Node) : P n :=
  match n with
  | mkNode nm rb ub dup None => Hleaf nm rb ub dup
  | mkNode nm rb ub dup (Some kids) =>
      Hkids nm rb ub dup kids
        ((fix all (l : list Node) : Forall P l :=
            match l with
            | [] => @List.Forall_nil Node P
            | k :: l' => @List.Forall_cons Node P k l' (Node_ind' k) (all l')
            end) kids)
  end.
End NodeInd.

(** ** Strings *)

(** [s.slice(n)]. *)
Fixpoint dropChars (n : nat) (s : string) : string :=
  match n, s with
  | O, _ => s
  | S n', String _ s' => dropChars n' s'
  | S _, EmptyString => EmptyString
  end.

(** [s.replace(pattern, replacement)] for a string [pattern]: the first
    occurrence of [pattern], scanning from the left, is replaced; without an
    occurrence [s] is returned.  (The replacement used by the audit is the
    empty string, which holds no [$] pattern.) *)
Fixpoint replace (s pattern replacement : string) : string :=
  if String.prefix pattern s
  then replacement +:+ dropChars (String.length pattern) s
  else match s with
       | EmptyString => EmptyString
       | String c s' => String c (replace s' pattern replacement)
       end.

Definition isSlash (c : ascii) : bool := Ascii.eqb c "/".

(** [s.split(/\/+/)]: cut at every maximal run of slashes.  [afterSlash]
    says that the character before [s] belonged to the run being skipped.
    The result is never empty: the empty string splits into one empty
    segment. *)
Fixpoint splitFrom (afterSlash : bool) (s : string) : list string :=
  match s with
  | EmptyString => [EmptyString]
  | String c s' =>
      if isSlash c
      then if afterSlash then splitFrom true s'
           else EmptyString :: splitFrom true s'
      else match splitFrom false s' with
           | seg :: rest => String c seg :: rest
           | [] => [String c EmptyString]
           end
  end.

Definition split (s : string) : list string := splitFrom false s.

(** [segments.join('/')]. *)
Fixpoint join (segments : list string) : string :=
  match segments with
  | [] => EmptyString
  | [seg] => seg
  | seg :: rest => seg +:+ "/" +:+ join rest
  end.

(** ** prepareTreemapNodes *)

Definition newNode (name : string) : Node := mkNode name 0 None None None.

(** [if (data.unusedBytes) node.unusedBytes = (node.unusedBytes || 0) + data.unusedBytes]:
    an absent or zero [data.unusedBytes] is falsy and leaves the field as it
    is. *)
Definition addUnused (data : SourceData) (cur : option Z) : option Z :=
  match sd_unusedBytes data with
  | Some u => if u =? 0 then cur else Some (default 0 cur + u)
  | None => cur
  end.

(** [node.resourceBytes += data.resourceBytes] and the [unusedBytes] line. *)
Definition applyData (data : SourceData) (node : Node) : Node :=
  set_unusedBytes (addUnused data (unusedBytes node))
    (set_resourceBytes (resourceBytes node + sd_resourceBytes data) node).

(** [if (isLastSegment && data.duplicate !== undefined) node.duplicate = data.duplicate]. *)
Definition applyDuplicate (isLastSegment : bool) (data : SourceData) (node : Node) : Node :=
  if isLastSegment
  then match sd_duplicate data with
       | Some key => set_duplicate (Some key) node
       | None => node
       end
  else node.

Definition hasName (segment : string) (child : Node) : bool :=
  String.eqb (name child) segment.

(** The first child named [segment] is replaced by [f] of it (the source
    mutates that child in place). *)
Fixpoint updateChild (segment : string) (f : Node -> Node) (kids : list Node) : list Node :=
  match kids with
  | [] => []
  | k :: ks => if hasName segment k then f k :: ks else k :: updateChild segment f ks
  end.

Definition isLast (rest : list string) : bool :=
  match rest with [] => true | _ :: _ => false end.

(** The [forEach] over [sourcePathSegments], started at [node]: find or
    create the child named by the segment, apply the data to it, go on from
    it with the remaining segments. *)
Fixpoint addSegments (data : SourceData) (segments : list string) (node : Node) : Node :=
  match segments with
  | [] => node
  | segment :: rest =>
      let visit child :=
        addSegments data rest (applyDuplicate (isLast rest) data (applyData data child)) in
      let kids := default [] (children node) in
      match find (hasName segment) kids with
      | Some _ => set_children (Some (updateChild segment visit kids)) node
      | None => set_children (Some (kids ++ [visit (newNode segment)])) node
      end
  end.

Definition sourcePathSegments (sourceRoot source : string) : list string :=
  split (replace source sourceRoot "").

Definition addAllNodesInSourcePath (sourceRoot : string) (source : string)
    (data : SourceData) (topNode : Node) : Node :=
  addSegments data (sourcePathSegments sourceRoot source) (applyData data topNode).

(** [source || `<unmapped>`]. *)
Definition sourceOrUnmapped (source : string) : string :=
  if String.eqb source "" then "<unmapped>" else source.

(** The tree after the loop over [Object.entries(sourcesData)], before
    [collapseAll]. *)
Definition buildTree (sourceRoot : string) (sourcesData : list (string * SourceData)) : Node :=
  fold_left
    (fun topNode entry =>
       addAllNodesInSourcePath sourceRoot (sourceOrUnmapped (fst entry)) (snd entry) topNode)
    sourcesData (newNode sourceRoot).

(** [collapseAll].  The [while] loop only rewrites [node.name] and
    [node.children]; [collapseFrom nm rb ub dup cur] is the loop at a node
    whose name has become [nm] and whose children have become those of [cur]
    (at first the node itself, then the only child just merged), followed by
    the recursive calls on the children that remain. *)
Fixpoint collapseFrom (nm : string) (rb : Z) (ub : option Z) (dup : option string)
    (cur : Node) : Node :=
  match children cur with
  | Some [child] => collapseFrom (nm +:+ "/" +:+ name child) rb ub dup child
  | Some kids =>
      mkNode nm rb ub dup
        (Some (map (fun k => collapseFrom (name k) (resourceBytes k) (unusedBytes k)
                                (duplicate k) k) kids))
  | None => mkNode nm rb ub dup None
  end.

Definition collapseAll (node : Node) : Node :=
  collapseFrom (name node) (resourceBytes node) (unusedBytes node) (duplicate node) node.

Definition prepareTreemapNodes (sourceRoot : string)
    (sourcesData : list (string * SourceData)) : Node :=
  collapseAll (buildTree sourceRoot sourcesData).

(** ** Observations on trees *)

(** All nodes of a tree, the root first. *)
Fixpoint nodes (n : Node) : list Node :=
  n :: match children n with
       | Some kids => flat_map nodes kids
       | None => []
       end.

(** The leaves of a tree, left to right. *)
Fixpoint leaves (n : Node) : list Node :=
  match children n with
  | Some kids => flat_map leaves kids
  | None => [n]
  end.

(** [node.children.length], 0 without the field. *)
Definition childCount (n : Node) : nat :=
  match children n with
  | Some kids => length kids
  | None => O
  end.

(** * What the tree built by path insertion holds

    An entry is a pair of the segments still to be walked below a node and
    the data to apply.  [Repr node E] says that [node] is the subtree that
    the entries [E], inserted in this order, build below it. *)

Definition Entry : Type := list string * SourceData.

Definition sumZ (l : list Z) : Z := fold_right Z.add 0 l.

Definition sumResource (E : list Entry) : Z :=
  sumZ (map (fun e => sd_resourceBytes (snd e)) E).

Definition unusedOf (E : list Entry) : option Z :=
  fold_left (fun cur e => addUnused (snd e) cur) E None.

(** The [duplicate] of a node: the one of the last entry that ends at the
    node and has one. *)
Definition endDuplicate (e : Entry) (cur : option string) : option string :=
  match fst e with
  | [] => match sd_duplicate (snd e) with Some key => Some key | None => cur end
  | _ :: _ => cur
  end.

Definition dupOf (E : list Entry) : option string :=
  fold_left (fun cur e => endDuplicate e cur) E None.

(** The entries that go through the child named [segment], with the
    segments that remain below it. *)
Fixpoint below (segment : string) (E : list Entry) : list Entry :=
  match E with
  | [] => []
  | (seg :: rest, data) :: E' =>
      if String.eqb seg segment then (rest, data) :: below segment E'
      else below segment E'
  | ([], _) :: E' => below segment E'
  end.

#[warning="-register-all"]
Inductive Repr : Node -> list Entry -> Prop :=
| Repr_leaf nm E :
    Forall (fun e => fst e = []) E ->
    Repr (mkNode nm (sumResource E) (unusedOf E) (dupOf E) None) E
| Repr_inner nm E kids :
    kids <> [] ->
    List.NoDup (map name kids) ->
    (forall seg rest data, In (seg :: rest, data) E -> In seg (map name kids)) ->
    (forall k, In k kids -> below (name k) E <> []) ->
    Forall (fun k => Repr k (below (name k) E)) kids ->
    Repr (mkNode nm (sumResource E) (unusedOf E) (dupOf E) (Some kids)) E.

Definition visit (data : SourceData) (rest : list string) (child : Node) : Node :=
  addSegments data rest (applyDuplicate (isLast rest) data (applyData data child)).

(** The entries of a call: each source of [sourcesData] with the segments
    [addAllNodesInSourcePath] walks for it. *)
Definition entryOf (sourceRoot : string) (entry : string * SourceData) : Entry :=
  (sourcePathSegments sourceRoot (sourceOrUnmapped (fst entry)), snd entry).

Definition entriesOf (sourceRoot : string) (sourcesData : list (string * SourceData)) : list Entry :=
  map (entryOf sourceRoot) sourcesData.

(** ** Positions *)

(** The node reached from [n] by following child names, each found the way
    the insertion finds it. *)
Fixpoint nodeAt (path : list string) (n : Node) : option Node :=
  match path with
  | [] => Some n
  | segment :: rest =>
      match find (hasName segment) (default [] (children n)) with
      | Some child => nodeAt rest child
      | None => None
      end
  end.

(** The nodes visited below [n] on the way. *)
Fixpoint walk (path : list string) (n : Node) : option (list Node) :=
  match path with
  | [] => Some []
  | segment :: rest =>
      match find (hasName segment) (default [] (children n)) with
      | Some child => option_map (cons child) (walk rest child)
      | None => None
      end
  end.

(** The entries that go through the node at [path]. *)
Fixpoint belowPath (path : list string) (E : list Entry) : list Entry :=
  match path with
  | [] => E
  | segment :: rest => belowPath rest (below segment E)
  end.

(** ** Paths that extend one another *)

Fixpoint isPrefix (p q : list string) : bool :=
  match p, q with
  | [], _ => true
  | s :: p', t :: q' => String.eqb s t && isPrefix p' q'
  | _ :: _, [] => false
  end.

Fixpoint isProperPrefix (p q : list string) : bool :=
  match p, q with
  | [], _ :: _ => true
  | s :: p', t :: q' => String.eqb s t && isProperPrefix p' q'
  | _, [] => false
  end.

(** No path of the list is another one cut short: no source is at the same
    time a directory of another source. *)
Definition prefixFree (paths : list (list string)) : bool :=
  forallb (fun p => forallb (fun q => negb (isProperPrefix p q)) paths) paths.

Definition pathsOf (sourceRoot : string) (sourcesData : list (string * SourceData)) :
    list (list string) :=
  map fst (entriesOf sourceRoot sourcesData).

Definition PF (E : list Entry) : Prop :=
  forall p d q d', In (p, d) E -> In (q, d') E -> isProperPrefix p q = false.

(** ** Sums *)

(** [data.unusedBytes] is truthy. *)
Definition hasUnused (data : SourceData) : bool :=
  match sd_unusedBytes data with
  | Some u => negb (u =? 0)
  | None => false
  end.

Definition unusedValue (data : SourceData) : Z := default 0 (sd_unusedBytes data).

Definition sumOver (f : SourceData -> Z) (E : list Entry) : Z :=
  sumZ (map (fun e => f (snd e)) E).

Definition anyOver (f : SourceData -> bool) (E : list Entry) : bool :=
  existsb (fun e => f (snd e)) E.

(** ** The aggregation invariant *)

Definition sumResourceBytes (kids : list Node) : Z := sumZ (map resourceBytes kids).

(** The children's [unusedBytes] added up, an absent field counted as zero. *)
Definition sumUnusedBytes (kids : list Node) : Z :=
  sumZ (map (fun k => default 0 (unusedBytes k)) kids).

Definition hasUnusedBytes (n : Node) : bool :=
  match unusedBytes n with Some _ => true | None => false end.

(** At a node with children: [resourceBytes] is the children's sum, and so is
    [unusedBytes] as soon as a child has the field. *)
Definition sumInvariantAt (n : Node) : Prop :=
  match children n with
  | None => True
  | Some kids =>
      resourceBytes n = sumResourceBytes kids /\
      ((exists k, In k kids /\ unusedBytes k <> None) ->
       unusedBytes n = Some (sumUnusedBytes kids))
  end.

Definition sumInvariant (t : Node) : Prop :=
  forall n, In n (nodes t) -> sumInvariantAt n.

(** The same, and moreover no [unusedBytes] on the node when no child has it. *)
Definition exactAt (n : Node) : Prop :=
  match children n with
  | None => True
  | Some kids =>
      resourceBytes n = sumResourceBytes kids /\
      unusedBytes n =
        if existsb hasUnusedBytes kids then Some (sumUnusedBytes kids) else None
  end.

(** ** Inputs and predicates of the properties *)

(** A source that is also a directory of other sources: [a] next to [a/b]
    and [a/c]. *)
Definition overlappingSources : list (string * SourceData) :=
  [("a", mkSourceData 1 None None);
   ("a/b", mkSourceData 2 None None);
   ("a/c", mkSourceData 4 None None)].

Definition twoFiles : list (string * SourceData) :=
  [("a/b.js", mkSourceData 100 (Some 30) None); ("a/c.js", mkSourceData 50 None None)].

(** [pattern] occurs somewhere in [s]. *)
Fixpoint occursIn (pattern s : string) : bool :=
  String.prefix pattern s ||
  match s with
  | EmptyString => false
  | String _ s' => occursIn pattern s'
  end.

(** The names along every walk from below the root down to a leaf. *)
Fixpoint leafPaths (n : Node) : list (list string) :=
  match children n with
  | Some kids => flat_map (fun k => map (cons (name k)) (leafPaths k)) kids
  | None => [[]]
  end.

(** No two slashes in a row. *)
Fixpoint noDoubleSlash (s : string) : bool :=
  match s with
  | EmptyString => true
  | String c s' =>
      negb (isSlash c && match s' with String c' _ => isSlash c' | EmptyString => false end)
      && noDoubleSlash s'
  end.

Definition doubleSlashSource : list (string * SourceData) :=
  [("a//b.js", mkSourceData 1 None None)].

Definition rootedFiles : list (string * SourceData) :=
  [("src/a/b.js", mkSourceData 100 (Some 30) None);
   ("src/a/c.js", mkSourceData 50 None None)].

(** [data.unusedBytes !== undefined]. *)
Definition isDefined (data : SourceData) : bool :=
  match sd_unusedBytes data with Some _ => true | None => false end.

(** Every node of the returned tree comes from a node of the tree as built,
    at some path, and carries [unusedBytes] exactly when one of the sources
    that go through that path has an [unusedBytes] that [counts]. *)
Definition unusedPresentIff (counts : SourceData -> bool) (sourceRoot : string)
    (sourcesData : list (string * SourceData)) : Prop :=
  forall m, In m (nodes (prepareTreemapNodes sourceRoot sourcesData)) ->
  exists path n,
    nodeAt path (buildTree sourceRoot sourcesData) = Some n /\
    m = collapseAll n /\
    (unusedBytes m <> None <->
     exists source data,
       In (source, data) sourcesData /\
       isPrefix path (sourcePathSegments sourceRoot (sourceOrUnmapped source)) = true /\
       counts data = true).

Definition zeroUnused : list (string * SourceData) :=
  [("a.js", mkSourceData 10 (Some 0) None)].

(** A source that is a file with a duplicate key and a directory at once. *)
Definition duplicateDirectory : list (string * SourceData) :=
  [("a", mkSourceData 1 None (Some "k"));
   ("a/b", mkSourceData 2 None None);
   ("a/c", mkSourceData 4 None None);
   ("y", mkSourceData 8 None None)].

Definition duplicateFiles : list (string * SourceData) :=
  [("a/b.js", mkSourceData 100 None (Some "b.js"));
   ("a/c.js", mkSourceData 50 None None)].

Definition leafBytes (n : Node) : Z * option Z := (resourceBytes n, unusedBytes n).

Definition leafData (n : Node) : Z * option Z * option string :=
  (resourceBytes n, unusedBytes n, duplicate n).

(** A source that is also the directory of the only source below it. *)
Definition fileOverOnlyChild : list (string * SourceData) :=
  [("a", mkSourceData 1 None None);
   ("a/b", mkSourceData 2 None None);
   ("c", mkSourceData 1 None None)].

Definition onlyChildDuplicate : list (string * SourceData) :=
  [("a/b.js", mkSourceData 10 None (Some "b.js"));
   ("c.js", mkSourceData 5 None None)].

(** * makeRootNodes

    The audit awaits three computed artifacts defined in other modules:
    [JsBundles.request], [ModuleDuplication.request] and
    [UnusedJavaScriptSummary.request].  The embedding takes what they
    resolve to: the list of bundles, the duplication map, and the summary as
    a function of the request; a run in which one of them rejects is not
    modelled. *)

Record ScriptElement := mkScriptElement {
  src : option string;
  content : option string
}.

(** The fields of a bundle that the audit reads: [bundle.script.src],
    [bundle.sizes.files] (its keys in [Object.keys] order, with the sizes) and
    [bundle.rawMap.sourceRoot]. *)
Record Bundle := mkBundle {
  bundle_script_src : option string;
  bundle_sizes_files : list (string * Z);
  bundle_rawMap_sourceRoot : option string
}.

Record Summary := mkSummary {
  totalBytes : Z;
  wastedBytes : Z;
  sourcesWastedBytes : option (gmap string Z)
}.

Section MakeRootNodes.
Variable ScriptCoverage : Type.
Variable Duplication : Type.

Record Artifacts := mkArtifacts {
  ScriptElements : list ScriptElement;
  URL_finalUrl : string;
  JsUsage : gmap string (list ScriptCoverage)
}.

(** [UnusedJavaScriptSummary.request({url, scriptCoverages, bundle}, context)]. *)
Variable unusedJavascriptSummary : string -> list ScriptCoverage -> Bundle -> Summary.
(** [ModuleDuplication.normalizeSource]. *)
Variable normalizeSource : string -> string.

(** The [src] of an external script; [!scriptElement.src] holds for an
    absent and for an empty [src]. *)
Definition externalSrc (scriptElement : ScriptElement) : option string :=
  match src scriptElement with
  | Some s => if String.eqb s "" then None else Some s
  | None => None
  end.

Definition inlineScriptLength (scriptElements : list ScriptElement) : Z :=
  fold_left
    (fun total scriptElement =>
       match externalSrc scriptElement with
       | None => total + Z.of_nat (String.length (default "" (content scriptElement)))
       | Some _ => total
       end)
    scriptElements 0.

(** [scriptElement.src === bundle.script.src]. *)
Definition bundleOf (s : string) (bundle : Bundle) : bool :=
  match bundle_script_src bundle with
  | Some s' => String.eqb s s'
  | None => false
  end.

Definition sourcesDataOf (duplicationByPath : gmap string Duplication)
    (wasted : gmap string Z) (bundle : Bundle) : list (string * SourceData) :=
  map (fun file =>
         let key := normalizeSource (fst file) in
         (fst file,
          mkSourceData (snd file) (wasted !! fst file)
            (if bool_decide (is_Some (duplicationByPath !! key)) then Some key else None)))
      (bundle_sizes_files bundle).

(** The body of the second loop for a script with the [src] [s]. *)
Definition rootNodeFor (artifacts : Artifacts) (bundles : list Bundle)
    (duplicationByPath : gmap string Duplication) (s : string) : RootNodeContainer :=
  let name := s in
  match find (bundleOf s) bundles, JsUsage artifacts !! s with
  | Some bundle, Some scriptCoverages =>
      let summary := unusedJavascriptSummary s scriptCoverages bundle in
      match sourcesWastedBytes summary with
      | Some wasted =>
          mkRootNodeContainer name
            (prepareTreemapNodes (default "" (bundle_rawMap_sourceRoot bundle))
               (sourcesDataOf duplicationByPath wasted bundle))
      | None =>
          mkRootNodeContainer name
            (mkNode name (totalBytes summary) (Some (wastedBytes summary)) None None)
      end
  | _, _ =>
      mkRootNodeContainer name (mkNode name (Z.of_nat (String.length s)) None None None)
  end.

Definition makeRootNodes (artifacts : Artifacts) (bundles : list Bundle)
    (duplicationByPath : gmap string Duplication) : list RootNodeContainer :=
  let total := inlineScriptLength (ScriptElements artifacts) in
  let rootNodeContainers :=
    if total =? 0 then []
    else [mkRootNodeContainer (URL_finalUrl artifacts)
            (mkNode (URL_finalUrl artifacts) total None None None)] in
  fold_left
    (fun rootNodeContainers scriptElement =>
       match externalSrc scriptElement with
       | None => rootNodeContainers
       | Some s =>
           rootNodeContainers ++ [rootNodeFor artifacts bundles duplicationByPath s]
       end)
    (ScriptElements artifacts) rootNodeContainers.

End MakeRootNodes.

Arguments mkArtifacts {ScriptCoverage}.
Arguments ScriptElements {ScriptCoverage}.
Arguments URL_finalUrl {ScriptCoverage}.
Arguments JsUsage {ScriptCoverage}.
Arguments sourcesDataOf {Duplication}.
Arguments rootNodeFor {ScriptCoverage Duplication}.
Arguments makeRootNodes {ScriptCoverage Duplication}.

Definition pageWithOneScript : Artifacts unit :=
  mkArtifacts
    [mkScriptElement None (Some "let x = 1;");
     mkScriptElement (Some "https://example.com/app.js") None]
    "https://example.com/" ∅.

(** [audit]: the product handed back to the audit runner, around the
    containers of [makeRootNodes]. *)
Record AuditProduct := mkAuditProduct {
  score : Z;
  details_type : string;
  details_treemapData : list RootNodeContainer
}.

Definition audit {ScriptCoverage Duplication : Type}
    (unusedJavascriptSummary : string -> list ScriptCoverage -> Bundle -> Summary)
    (normalizeSource : string -> string)
    (artifacts : Artifacts ScriptCoverage) (bundles : list Bundle)
    (duplicationByPath : gmap string Duplication) : AuditProduct :=
  mkAuditProduct 1 "debugdata"
    (makeRootNodes unusedJavascriptSummary normalizeSource artifacts bundles
       duplicationByPath).

(** ** Further observations *)

(** The data of the sources whose segments go through [path], in the order
    of the mapping. *)
Definition sourcesThrough (sourceRoot : string) (path : list string)
    (sourcesData : list (string * SourceData)) : list SourceData :=
  map snd
    (List.filter (fun entry =>
               isPrefix path (sourcePathSegments sourceRoot (sourceOrUnmapped (fst entry))))
       sourcesData).

(** What a node holds for a list of data applied to it. *)
Definition unusedTotal (datas : list SourceData) : option Z :=
  if existsb hasUnused datas then Some (sumZ (map unusedValue datas)) else None.

Fixpoint noSlash (s : string) : bool :=
  match s with
  | EmptyString => true
  | String c s' => negb (isSlash c) && noSlash s'
  end.

(** The names from the root down to each leaf, joined by [/]. *)
Definition fullPaths (t : Node) : list string :=
  map (fun names => join (name t :: names)) (leafPaths t).

(** The [src] of the external scripts, in script order. *)
Definition externalSrcs (scriptElements : list ScriptElement) : list string :=
  flat_map (fun scriptElement =>
              match externalSrc scriptElement with
              | Some s => [s]
              | None => []
              end) scriptElements.

(** The container of the inline scripts, when there is one. *)
Definition inlineContainers {ScriptCoverage : Type} (artifacts : Artifacts ScriptCoverage) :
    list RootNodeContainer :=
  if inlineScriptLength (ScriptElements artifacts) =? 0 then []
  else [mkRootNodeContainer (URL_finalUrl artifacts)
          (mkNode (URL_finalUrl artifacts) (inlineScriptLength (ScriptElements artifacts))
             None None None)].

Definition bundleAndCoverage : list Bundle * gmap string (list unit) :=
  ([mkBundle (Some "https://example.com/app.js")
      [("src/a.js", 100); ("src/b.js", 50)] (Some "src")],
   {["https://example.com/app.js" := [tt]]}).

Definition pageWithBundle : Artifacts unit :=
  mkArtifacts [mkScriptElement (Some "https://example.com/app.js") None]
    "https://example.com/" (snd bundleAndCoverage).

(** * Properties *)

(** The trees of three small calls. *)
Example prepareTreemapNodes_two_files :
  prepareTreemapNodes ""
    [("a/b.js", mkSourceData 100 None None); ("a/c.js", mkSourceData 50 None None)]
  = mkNode "/a" 150 None None
      (Some [mkNode "b.js" 100 None None None; mkNode "c.js" 50 None None None]).
Proof. reflexivity. Qed.

Example prepareTreemapNodes_chain :
  prepareTreemapNodes "" [("x/y/z.js", mkSourceData 10 (Some 5) None)]
  = mkNode "/x/y/z.js" 10 (Some 5) None None.
Proof. reflexivity. Qed.

Example buildTree_unmapped :
  buildTree "" [("", mkSourceData 3 None None)]
  = mkNode "" 3 None None (Some [mkNode "<unmapped>" 3 None None None]).
Proof. reflexivity. Qed.

Example split_examples :
  split "a//b/" = ["a"; "b"; ""] /\ split "" = [""] /\ split "/a" = [""; "a"].
Proof. repeat split; reflexivity. Qed.

(** ** Chain compression *)

Lemma node_eta (n : Node) :
  mkNode (name n) (resourceBytes n) (unusedBytes n) (duplicate n) (children n) = n.
Proof. destruct n; reflexivity. Qed.

Lemma collapseFrom_leaf nm rb ub dup cur :
  children cur = None -> collapseFrom nm rb ub dup cur = mkNode nm rb ub dup None.
Proof. destruct cur; simpl; intros ->; reflexivity. Qed.

Lemma collapseFrom_one nm rb ub dup cur child :
  children cur = Some [child] ->
  collapseFrom nm rb ub dup cur = collapseFrom (nm +:+ "/" +:+ name child) rb ub dup child.
Proof. destruct cur; simpl; intros ->; reflexivity. Qed.

Lemma collapseFrom_many nm rb ub dup cur kids :
  children cur = Some kids -> length kids <> 1%nat ->
  collapseFrom nm rb ub dup cur = mkNode nm rb ub dup (Some (map collapseAll kids)).
Proof.
  destruct cur; simpl; intros -> Hlen.
  destruct kids as [|k1 [|k2 ks]]; simpl in *; try reflexivity; congruence.
Qed.

(** The three equations are the source's [collapseAll]: one turn of the
    [while] loop and the same function again; or, the loop being over, the
    recursive calls on the children. *)
Lemma collapseAll_loop node child :
  children node = Some [child] ->
  collapseAll node =
  collapseAll (set_children (children child)
                 (set_name (name node +:+ "/" +:+ name child) node)).
Proof.
  intros H. unfold collapseAll at 1. rewrite (collapseFrom_one _ _ _ _ _ _ H).
  unfold collapseAll; simpl. destruct child as [? ? ? ? kids]; reflexivity.
Qed.

Lemma collapseAll_children node kids :
  children node = Some kids -> length kids <> 1%nat ->
  collapseAll node = set_children (Some (map collapseAll kids)) node.
Proof. intros H Hlen. unfold collapseAll. rewrite (collapseFrom_many _ _ _ _ _ _ H Hlen). reflexivity. Qed.

Lemma collapseAll_leaf node : children node = None -> collapseAll node = node.
Proof.
  intros H. unfold collapseAll. rewrite collapseFrom_leaf by exact H.
  rewrite <- H. apply node_eta.
Qed.

(** The loop never writes [resourceBytes], [unusedBytes] or [duplicate]. *)
Lemma collapseFrom_fields nm rb ub dup cur :
  resourceBytes (collapseFrom nm rb ub dup cur) = rb /\
  unusedBytes (collapseFrom nm rb ub dup cur) = ub /\
  duplicate (collapseFrom nm rb ub dup cur) = dup.
Proof.
  revert nm. induction cur as [? ? ? ? | ? ? ? ? kids IH] using Node_ind'; intros nm'.
  - simpl; auto.
  - destruct kids as [|k1 [|k2 ks]]; simpl; auto.
    inversion IH; subst. auto.
Qed.

Lemma collapseAll_fields node :
  resourceBytes (collapseAll node) = resourceBytes node /\
  unusedBytes (collapseAll node) = unusedBytes node /\
  duplicate (collapseAll node) = duplicate node.
Proof. apply collapseFrom_fields. Qed.

Lemma collapseFrom_no_single cur : forall nm rb ub dup m,
  In m (nodes (collapseFrom nm rb ub dup cur)) -> childCount m <> 1%nat.
Proof.
  induction cur as [? ? ? ? | ? ? ? ? kids IH] using Node_ind'; intros nm' rb' ub' dup' m.
  - simpl. intros [<- | []]. discriminate.
  - destruct kids as [|k1 [|k2 ks]].
    + simpl. intros [<- | []]. discriminate.
    + inversion IH as [|? ? Hk1 _]; subst.
      rewrite (collapseFrom_one _ _ _ _ _ k1) by reflexivity. apply Hk1.
    + rewrite (collapseFrom_many _ _ _ _ _ (k1 :: k2 :: ks)) by (simpl; congruence).
      cbn [nodes children]. intros [<- | Hin].
      * unfold childCount; cbn [children]. rewrite length_map. simpl. lia.
      * apply in_flat_map in Hin as (k' & Hk' & Hm).
        apply in_map_iff in Hk' as (k & <- & Hk).
        rewrite List.Forall_forall in IH. exact (IH k Hk _ _ _ _ m Hm).
Qed.

(** A tree without a node of exactly one child is left as it is. *)
Lemma collapseFrom_fixed cur :
  (forall m, In m (nodes cur) -> childCount m <> 1%nat) ->
  forall nm rb ub dup, collapseFrom nm rb ub dup cur = mkNode nm rb ub dup (children cur).
Proof.
  induction cur as [? ? ? ? | ? ? ? ? kids IH] using Node_ind'; intros Hall nm' rb' ub' dup'.
  - reflexivity.
  - assert (Hlen : length kids <> 1%nat).
    { apply (Hall (mkNode nm rb ub dup (Some kids))). simpl; auto. }
    rewrite (collapseFrom_many _ _ _ _ _ kids) by (auto; reflexivity).
    cbn [children]. do 2 f_equal.
    rewrite <- (map_id kids) at 2. apply map_ext_in. intros k Hk.
    rewrite List.Forall_forall in IH. unfold collapseAll.
    rewrite (IH k Hk).
    + apply node_eta.
    + intros m Hm. apply Hall. cbn [nodes children]. right.
      apply in_flat_map. eauto.
Qed.

(** ** What the tree built by path insertion holds *)

Lemma sumResource_app E E' : sumResource (E ++ E') = sumResource E + sumResource E'.
Proof.
  unfold sumResource. induction E as [|e E IH]; simpl; [reflexivity | rewrite IH; lia].
Qed.

Lemma below_app segment E E' : below segment (E ++ E') = below segment E ++ below segment E'.
Proof.
  induction E as [|[[|seg rest] data] E IH]; simpl; auto.
  destruct (String.eqb seg segment); simpl; rewrite IH; reflexivity.
Qed.

Lemma in_below segment rest data E :
  In (rest, data) (below segment E) <-> In (segment :: rest, data) E.
Proof.
  induction E as [|[[|seg r] d] E IH]; simpl.
  - tauto.
  - rewrite IH. split; [auto | intros [H | H]; [discriminate | auto]].
  - destruct (String.eqb_spec seg segment) as [-> | Hne]; simpl; rewrite IH.
    + split; intros [H | H]; auto; left; congruence.
    + split; [auto | intros [H | H]; [congruence | auto]].
Qed.

Lemma below_nil segment E :
  (forall rest data, ~ In (segment :: rest, data) E) -> below segment E = [].
Proof.
  intros H. destruct (below segment E) as [|[rest data] B] eqn:HB; [reflexivity | exfalso].
  apply (H rest data), in_below. rewrite HB. left; reflexivity.
Qed.

Lemma Repr_intro n E :
  resourceBytes n = sumResource E ->
  unusedBytes n = unusedOf E ->
  duplicate n = dupOf E ->
  match children n with
  | None => Forall (fun e => fst e = []) E
  | Some kids =>
      kids <> [] /\ List.NoDup (map name kids) /\
      (forall seg rest data, In (seg :: rest, data) E -> In seg (map name kids)) /\
      (forall k, In k kids -> below (name k) E <> []) /\
      Forall (fun k => Repr k (below (name k) E)) kids
  end ->
  Repr n E.
Proof.
  destruct n as [nm rb ub dup [kids|]]; simpl; intros -> -> -> H.
  - destruct H as (? & ? & ? & ? & ?). now constructor.
  - now constructor.
Qed.

Lemma Repr_elim n E :
  Repr n E ->
  resourceBytes n = sumResource E /\
  unusedBytes n = unusedOf E /\
  duplicate n = dupOf E /\
  match children n with
  | None => Forall (fun e => fst e = []) E
  | Some kids =>
      kids <> [] /\ List.NoDup (map name kids) /\
      (forall seg rest data, In (seg :: rest, data) E -> In seg (map name kids)) /\
      (forall k, In k kids -> below (name k) E <> []) /\
      Forall (fun k => Repr k (below (name k) E)) kids
  end.
Proof. intros H; inversion H; subst; simpl; auto 10. Qed.

(** The children of a represented node, an absent field read as no child. *)
Lemma Repr_kids n E :
  Repr n E ->
  List.NoDup (map name (default [] (children n))) /\
  (forall seg rest data, In (seg :: rest, data) E ->
     In seg (map name (default [] (children n)))) /\
  (forall k, In k (default [] (children n)) ->
     below (name k) E <> [] /\ Repr k (below (name k) E)).
Proof.
  intros H. apply Repr_elim in H as (_ & _ & _ & H).
  destruct (children n) as [kids|]; simpl.
  - destruct H as (_ & Hnd & Hcov & Hne & Hall). rewrite List.Forall_forall in Hall. auto.
  - split; [constructor | split].
    + intros seg rest data Hin. rewrite List.Forall_forall in H.
      specialize (H _ Hin). discriminate.
    + intros k [].
Qed.

Lemma addSegments_fields data segments node :
  name (addSegments data segments node) = name node /\
  resourceBytes (addSegments data segments node) = resourceBytes node /\
  unusedBytes (addSegments data segments node) = unusedBytes node /\
  duplicate (addSegments data segments node) = duplicate node.
Proof.
  destruct segments as [|segment rest]; simpl; auto.
  destruct (find _ _); simpl; auto.
Qed.

Lemma visit_name data rest child : name (visit data rest child) = name child.
Proof.
  unfold visit. destruct (addSegments_fields data rest
    (applyDuplicate (isLast rest) data (applyData data child))) as (-> & _).
  unfold applyDuplicate. destruct (isLast rest), (sd_duplicate data); reflexivity.
Qed.

Lemma visit_resourceBytes data rest child :
  resourceBytes (visit data rest child) = resourceBytes child + sd_resourceBytes data.
Proof.
  unfold visit. destruct (addSegments_fields data rest
    (applyDuplicate (isLast rest) data (applyData data child))) as (_ & -> & _).
  unfold applyDuplicate. destruct (isLast rest), (sd_duplicate data); reflexivity.
Qed.

Lemma visit_unusedBytes data rest child :
  unusedBytes (visit data rest child) = addUnused data (unusedBytes child).
Proof.
  unfold visit. destruct (addSegments_fields data rest
    (applyDuplicate (isLast rest) data (applyData data child))) as (_ & _ & -> & _).
  unfold applyDuplicate. destruct (isLast rest), (sd_duplicate data); reflexivity.
Qed.

Lemma visit_duplicate data rest child :
  duplicate (visit data rest child) = endDuplicate (rest, data) (duplicate child).
Proof.
  unfold visit. destruct (addSegments_fields data rest
    (applyDuplicate (isLast rest) data (applyData data child))) as (_ & _ & _ & ->).
  unfold applyDuplicate, endDuplicate; simpl.
  destruct rest; simpl; destruct (sd_duplicate data); reflexivity.
Qed.

Lemma visit_children_nil data child :
  children (visit data [] child) = children child.
Proof.
  unfold visit; simpl. unfold applyDuplicate; simpl.
  destruct (sd_duplicate data); reflexivity.
Qed.

Lemma visit_children_cons data segment rest child :
  children (visit data (segment :: rest) child) =
  match find (hasName segment) (default [] (children child)) with
  | Some _ => Some (updateChild segment (visit data rest) (default [] (children child)))
  | None => Some (default [] (children child) ++ [visit data rest (newNode segment)])
  end.
Proof.
  unfold visit at 1. cbn [isLast applyDuplicate addSegments].
  fold (visit data rest). cbn [applyData set_unusedBytes set_resourceBytes children].
  destruct (find _ _); reflexivity.
Qed.

Lemma find_hasName_Some segment kids k :
  find (hasName segment) kids = Some k -> In k kids /\ name k = segment.
Proof.
  intros H. apply find_some in H as [Hin Hn]. split; [exact Hin |].
  apply String.eqb_eq. exact Hn.
Qed.

Lemma find_hasName_None segment kids :
  find (hasName segment) kids = None -> ~ In segment (map name kids).
Proof.
  intros H Hin. apply in_map_iff in Hin as (k & Hk & Hin).
  pose proof (find_none _ _ H k Hin) as Hn. unfold hasName in Hn.
  rewrite Hk, String.eqb_refl in Hn. discriminate.
Qed.

(** With distinct names among the children, the child that [updateChild]
    touches is the only one of that name. *)
Lemma updateChild_map segment f kids :
  List.NoDup (map name kids) ->
  updateChild segment f kids = map (fun k => if hasName segment k then f k else k) kids.
Proof.
  induction kids as [|k ks IH]; simpl; intros Hnd; [reflexivity |].
  inversion Hnd as [|? ? Hnotin Hnd']; subst.
  destruct (hasName segment k) eqn:Hk.
  - f_equal. rewrite <- (map_id ks) at 1. apply map_ext_in. intros k' Hk'.
    destruct (hasName segment k') eqn:Hk''; [exfalso | reflexivity].
    apply String.eqb_eq in Hk, Hk''. apply Hnotin. rewrite Hk, <- Hk''.
    apply in_map. exact Hk'.
  - f_equal. auto.
Qed.

Lemma Repr_newNode segment : Repr (newNode segment) [].
Proof. apply (Repr_leaf segment []). constructor. Qed.

(** One path insertion below a node adds one entry to what it represents. *)
Lemma Repr_visit segments : forall data n E,
  Repr n E -> Repr (visit data segments n) (E ++ [(segments, data)]).
Proof.
  induction segments as [|segment rest IH]; intros data n E HR;
    pose proof (Repr_elim _ _ HR) as (Hrb & Hub & Hdup & Hch);
    apply Repr_intro.
  - rewrite visit_resourceBytes, sumResource_app, Hrb. unfold sumResource; simpl. lia.
  - rewrite visit_unusedBytes, Hub. unfold unusedOf. rewrite fold_left_app. reflexivity.
  - rewrite visit_duplicate, Hdup. unfold dupOf. rewrite fold_left_app. reflexivity.
  - rewrite visit_children_nil. destruct (children n) as [kids|].
    + destruct Hch as (Hne & Hnd & Hcov & Hbel & Hall). repeat split; auto.
      * intros seg r d Hin. apply in_app_iff in Hin as [Hin | [Heq | []]]; [eauto | discriminate].
      * intros k Hk. rewrite below_app. simpl. rewrite app_nil_r. auto.
      * rewrite List.Forall_forall in *. intros k Hk.
        rewrite below_app. simpl. rewrite app_nil_r. auto.
    + apply Forall_app. split; [exact Hch | repeat constructor].
  - rewrite visit_resourceBytes, sumResource_app, Hrb. unfold sumResource; simpl. lia.
  - rewrite visit_unusedBytes, Hub. unfold unusedOf. rewrite fold_left_app. reflexivity.
  - rewrite visit_duplicate, Hdup. unfold dupOf. rewrite fold_left_app. reflexivity.
  - rewrite visit_children_cons.
    destruct (Repr_kids _ _ HR) as (Hnd & Hcov & Hkid).
    set (kids := default [] (children n)) in *.
    assert (Hbelow : forall sg, below sg (E ++ [(segment :: rest, data)]) =
              below sg E ++ (if String.eqb segment sg then [(rest, data)] else [])).
    { intros sg. rewrite below_app. simpl. destruct (String.eqb segment sg); reflexivity. }
    destruct (find (hasName segment) kids) as [k0|] eqn:Hfind.
    + apply find_hasName_Some in Hfind as [Hk0 Hname].
      rewrite (updateChild_map _ _ _ Hnd).
      assert (Hnames : map name (map (fun k => if hasName segment k
                          then visit data rest k else k) kids) = map name kids).
      { rewrite map_map. apply map_ext. intros k.
        destruct (hasName segment k); [apply visit_name | reflexivity]. }
      split; [| split; [| split; [| split]]].
      * destruct kids; [destruct Hk0 | discriminate].
      * rewrite Hnames. exact Hnd.
      * rewrite Hnames. intros seg r d Hin.
        apply in_app_iff in Hin as [Hin | [Heq | []]]; [eauto |].
        inversion Heq; subst. apply in_map. exact Hk0.
      * intros k' Hk'. apply in_map_iff in Hk' as (k & <- & Hk).
        rewrite Hbelow. destruct (Hkid k Hk) as [Hne _].
        destruct (hasName segment k); [rewrite visit_name |];
          destruct (below (name k) E); try congruence; discriminate.
      * apply Forall_map, List.Forall_forall. intros k Hk.
        destruct (Hkid k Hk) as [_ HRk]. rewrite Hbelow.
        unfold hasName. rewrite (String.eqb_sym (name k)).
        destruct (String.eqb_spec segment (name k)) as [Heq | Hneq].
        -- rewrite visit_name, <- Heq, String.eqb_refl. rewrite Heq. apply IH, HRk.
        -- apply String.eqb_neq in Hneq. rewrite Hneq, app_nil_r. exact HRk.
    + apply find_hasName_None in Hfind.
      assert (Hnil : below segment E = []).
      { apply below_nil. intros r d Hin. apply Hfind. eauto. }
      split; [| split; [| split; [| split]]].
      * destruct kids; discriminate.
      * rewrite map_app. simpl. rewrite visit_name. simpl.
        apply List.NoDup_app; [exact Hnd | |].
        -- constructor; [intros [] | constructor].
        -- intros x Hx [<- | []]. apply Hfind, Hx.
      * rewrite map_app. simpl. rewrite visit_name. simpl.
        intros seg r d Hin. apply in_app_iff.
        apply in_app_iff in Hin as [Hin | [Heq | []]]; [left; eauto |].
        inversion Heq; subst. right; left; reflexivity.
      * intros k Hk. rewrite Hbelow. apply in_app_iff in Hk as [Hk | [<- | []]].
        -- destruct (Hkid k Hk) as [Hne _].
           destruct (below (name k) E); [congruence | discriminate].
        -- rewrite visit_name. simpl. rewrite String.eqb_refl, Hnil. discriminate.
      * apply Forall_app. split.
        -- apply List.Forall_forall. intros k Hk. destruct (Hkid k Hk) as [_ HRk].
           rewrite Hbelow. destruct (String.eqb_spec segment (name k)) as [Heq | _].
           ++ exfalso. apply Hfind. rewrite Heq. apply in_map. exact Hk.
           ++ rewrite app_nil_r. exact HRk.
        -- constructor; [| constructor]. rewrite visit_name, Hbelow. simpl.
           rewrite String.eqb_refl, Hnil. apply (IH data (newNode segment) []).
           apply Repr_newNode.
Qed.

Lemma splitFrom_nonempty afterSlash s : splitFrom afterSlash s <> [].
Proof.
  revert afterSlash. induction s as [|c s IH]; intros afterSlash; simpl; [discriminate |].
  destruct (isSlash c).
  - destruct afterSlash; [apply IH | discriminate].
  - destruct (splitFrom false s); discriminate.
Qed.

Lemma sourcePathSegments_nonempty sourceRoot source :
  sourcePathSegments sourceRoot source <> [].
Proof. apply splitFrom_nonempty. Qed.

Lemma addAllNodesInSourcePath_visit sourceRoot source data topNode :
  addAllNodesInSourcePath sourceRoot source data topNode =
  visit data (sourcePathSegments sourceRoot source) topNode.
Proof.
  unfold addAllNodesInSourcePath, visit.
  destruct (sourcePathSegments sourceRoot source) eqn:H; [| reflexivity].
  now apply sourcePathSegments_nonempty in H.
Qed.

Lemma fold_addAll_Repr sourceRoot sourcesData : forall topNode E,
  Repr topNode E ->
  Repr (fold_left
          (fun topNode entry =>
             addAllNodesInSourcePath sourceRoot (sourceOrUnmapped (fst entry)) (snd entry) topNode)
          sourcesData topNode)
       (E ++ entriesOf sourceRoot sourcesData).
Proof.
  induction sourcesData as [|entry sourcesData IH]; intros topNode E HR; simpl.
  - rewrite app_nil_r. exact HR.
  - change (E ++ entryOf sourceRoot entry :: entriesOf sourceRoot sourcesData)
      with (E ++ [entryOf sourceRoot entry] ++ entriesOf sourceRoot sourcesData).
    rewrite app_assoc. apply IH.
    rewrite addAllNodesInSourcePath_visit. apply Repr_visit, HR.
Qed.

(** The tree built by path insertion represents the entries of the call. *)
Lemma buildTree_Repr sourceRoot sourcesData :
  Repr (buildTree sourceRoot sourcesData) (entriesOf sourceRoot sourcesData).
Proof. apply (fold_addAll_Repr sourceRoot sourcesData (newNode sourceRoot) []), Repr_newNode. Qed.

Lemma fold_addAll_name sourceRoot sourcesData : forall topNode,
  name (fold_left
          (fun topNode entry =>
             addAllNodesInSourcePath sourceRoot (sourceOrUnmapped (fst entry)) (snd entry) topNode)
          sourcesData topNode) = name topNode.
Proof.
  induction sourcesData as [|entry sourcesData IH]; intros topNode; simpl; [reflexivity |].
  rewrite IH, addAllNodesInSourcePath_visit. apply visit_name.
Qed.

Lemma buildTree_name sourceRoot sourcesData :
  name (buildTree sourceRoot sourcesData) = sourceRoot.
Proof. apply (fold_addAll_name sourceRoot sourcesData (newNode sourceRoot)). Qed.

Lemma in_belowPath path : forall rest data E,
  In (rest, data) (belowPath path E) <-> In (path ++ rest, data) E.
Proof.
  induction path as [|segment path IH]; intros rest data E; simpl; [tauto |].
  rewrite IH. apply in_below.
Qed.

Lemma find_hasName_NoDup kids k :
  List.NoDup (map name kids) -> In k kids -> find (hasName (name k)) kids = Some k.
Proof.
  induction kids as [|k' ks IH]; simpl; intros Hnd Hin; [contradiction |].
  destruct Hin as [-> | Hin].
  - unfold hasName. now rewrite String.eqb_refl.
  - inversion Hnd as [|? ? Hnotin Hnd']; subst.
    destruct (hasName (name k) k') eqn:Hn; [exfalso | auto].
    apply String.eqb_eq in Hn. apply Hnotin. rewrite Hn. now apply in_map.
Qed.

Lemma Repr_nodeAt path : forall t E n,
  Repr t E -> nodeAt path t = Some n -> Repr n (belowPath path E).
Proof.
  induction path as [|segment path IH]; intros t E n HR; simpl.
  - intros [= <-]. exact HR.
  - destruct (find _ _) as [child|] eqn:Hfind; [| discriminate].
    apply find_hasName_Some in Hfind as [Hin <-].
    apply IH. now apply (Repr_kids _ _ HR).
Qed.

(** Every node of a represented tree sits at a position. *)
Lemma Repr_nodes_nodeAt t : forall E n,
  Repr t E -> In n (nodes t) -> exists path, nodeAt path t = Some n.
Proof.
  induction t as [? ? ? ? | ? ? ? ? kids IH] using Node_ind'; intros E n HR.
  - simpl. intros [<- | []]. now exists [].
  - cbn [nodes children]. intros [<- | Hin]; [now exists [] |].
    apply in_flat_map in Hin as (k & Hk & Hn).
    destruct (Repr_kids _ _ HR) as (Hnd & _ & Hkid). cbn [children default] in *.
    rewrite List.Forall_forall in IH.
    destruct (IH k Hk _ n (proj2 (Hkid k Hk)) Hn) as [path Hpath].
    exists (name k :: path). cbn [nodeAt children default].
    now rewrite (find_hasName_NoDup _ _ Hnd Hk).
Qed.

(** ** Paths that extend one another *)

Lemma prefixFree_PF E : prefixFree (map fst E) = true -> PF E.
Proof.
  unfold prefixFree. rewrite forallb_forall. intros H p d q d' Hp Hq.
  specialize (H p (in_map fst _ _ Hp)). rewrite forallb_forall in H.
  specialize (H q (in_map fst _ _ Hq)). now apply negb_true_iff in H.
Qed.

Lemma PF_below segment E : PF E -> PF (below segment E).
Proof.
  intros H p d q d' Hp Hq. apply in_below in Hp, Hq.
  specialize (H _ _ _ _ Hp Hq). simpl in H. now rewrite String.eqb_refl in H.
Qed.

Lemma PF_belowPath path : forall E, PF E -> PF (belowPath path E).
Proof. induction path as [|segment path IH]; simpl; auto using PF_below. Qed.

(** Below a node with children no entry ends at the node itself. *)
Lemma Repr_PF_inner n E kids :
  Repr n E -> PF E -> children n = Some kids ->
  forall p d, In (p, d) E -> p <> [].
Proof.
  intros HR HPF Hkids p d Hin ->.
  apply Repr_elim in HR as (_ & _ & _ & H). rewrite Hkids in H.
  destruct H as (Hne & _ & _ & Hbel & _).
  destruct kids as [|k ks]; [congruence |].
  specialize (Hbel k (or_introl eq_refl)).
  destruct (below (name k) E) as [|[r d'] B] eqn:HB; [congruence |].
  assert (Hin' : In (name k :: r, d') E) by (apply in_below; rewrite HB; now left).
  specialize (HPF _ _ _ _ Hin Hin'). discriminate.
Qed.

(** ** Sums *)

Lemma existsb_ext_in {A} (f g : A -> bool) l :
  (forall x, In x l -> f x = g x) -> existsb f l = existsb g l.
Proof.
  induction l as [|x l IH]; simpl; intros H; [reflexivity |].
  rewrite (H x), IH; auto.
Qed.

Lemma sumZ_app l l' : sumZ (l ++ l') = sumZ l + sumZ l'.
Proof. induction l; simpl; lia. Qed.

Lemma sumZ_map_add {A} (g h : A -> Z) l :
  sumZ (map (fun x => g x + h x) l) = sumZ (map g l) + sumZ (map h l).
Proof. induction l; simpl; lia. Qed.

Lemma sumZ_map_zero {A} (g : A -> Z) l :
  (forall x, In x l -> g x = 0) -> sumZ (map g l) = 0.
Proof.
  induction l as [|x l IH]; simpl; intros H; [reflexivity |].
  rewrite (H x), IH; auto.
Qed.

Lemma sumZ_indicator segment a kids :
  List.NoDup (map name kids) -> In segment (map name kids) ->
  sumZ (map (fun k => if String.eqb segment (name k) then a else 0) kids) = a.
Proof.
  induction kids as [|k ks IH]; simpl; intros Hnd Hin; [contradiction |].
  inversion Hnd as [|? ? Hnotin Hnd']; subst.
  destruct (String.eqb_spec segment (name k)) as [-> | Hne].
  - rewrite sumZ_map_zero; [lia |]. intros k' Hk'.
    destruct (String.eqb_spec (name k) (name k')) as [Heq | _]; [| reflexivity].
    exfalso. apply Hnotin. rewrite Heq. now apply in_map.
  - destruct Hin as [Heq | Hin]; [congruence |]. rewrite IH; auto.
Qed.

(** Entries that all go through a child are shared out among the children. *)
Lemma sumOver_partition f kids E :
  List.NoDup (map name kids) ->
  (forall seg rest data, In (seg :: rest, data) E -> In seg (map name kids)) ->
  (forall p d, In (p, d) E -> p <> []) ->
  sumOver f E = sumZ (map (fun k => sumOver f (below (name k) E)) kids).
Proof.
  intros Hnd. induction E as [|[[|seg rest] data] E IH]; intros Hcov Hne.
  - symmetry. now apply sumZ_map_zero.
  - exfalso. apply (Hne [] data); [now left | reflexivity].
  - change (sumOver f ((seg :: rest, data) :: E)) with (f data + sumOver f E).
    rewrite IH;
      [| intros; eapply Hcov; right; eassumption | intros; eapply Hne; right; eassumption].
    rewrite <- (sumZ_indicator seg (f data) kids Hnd)
      by (eapply Hcov; left; reflexivity).
    rewrite <- sumZ_map_add. f_equal. apply map_ext. intros k. cbn [below].
    destruct (String.eqb seg (name k)); reflexivity.
Qed.

Lemma anyOver_below_intro f segment rest data E :
  In (segment :: rest, data) E -> f data = true -> anyOver f (below segment E) = true.
Proof.
  intros Hin Hf. apply existsb_exists. exists (rest, data). split; [| exact Hf].
  now apply in_below.
Qed.

Lemma anyOver_partition f kids E :
  (forall seg rest data, In (seg :: rest, data) E -> In seg (map name kids)) ->
  (forall p d, In (p, d) E -> p <> []) ->
  anyOver f E = existsb (fun k => anyOver f (below (name k) E)) kids.
Proof.
  intros Hcov Hne. apply eq_true_iff_eq. unfold anyOver. rewrite !existsb_exists. split.
  - intros ([[|seg rest] data] & Hin & Hf); [now apply Hne in Hin |].
    pose proof (Hcov _ _ _ Hin) as Hk. apply in_map_iff in Hk as (k & <- & Hk).
    exists k. split; [exact Hk |]. now apply (anyOver_below_intro f _ rest data).
  - intros (k & Hk & Hex). apply existsb_exists in Hex as ([rest data] & Hin & Hf).
    apply in_below in Hin. eauto.
Qed.

Lemma sumOver_no_unused E :
  anyOver hasUnused E = false -> sumOver unusedValue E = 0.
Proof.
  unfold anyOver, sumOver. intros H. apply sumZ_map_zero. intros e He.
  assert (Hf : hasUnused (snd e) = false).
  { destruct (hasUnused (snd e)) eqn:Hu; [| reflexivity].
    rewrite <- H. symmetry. apply existsb_exists. eauto. }
  unfold hasUnused, unusedValue in *. destruct (sd_unusedBytes (snd e)) as [u|]; simpl; [| reflexivity].
  apply negb_false_iff in Hf. lia.
Qed.

Lemma fold_addUnused E : forall cur,
  fold_left (fun cur e => addUnused (snd e) cur) E cur =
  if anyOver hasUnused E then Some (default 0 cur + sumOver unusedValue E) else cur.
Proof.
  induction E as [|e E IH]; intros cur; [reflexivity |].
  cbn [fold_left]. rewrite IH.
  change (anyOver hasUnused (e :: E)) with (hasUnused (snd e) || anyOver hasUnused E).
  change (sumOver unusedValue (e :: E)) with (unusedValue (snd e) + sumOver unusedValue E).
  pose proof (sumOver_no_unused E) as Hzero.
  destruct (anyOver hasUnused E); [clear Hzero | rewrite Hzero by reflexivity];
    generalize (sumOver unusedValue E); intros rest;
    unfold addUnused, hasUnused, unusedValue;
    (destruct (sd_unusedBytes (snd e)) as [u|]; simpl; [| reflexivity]);
    destruct (Z.eqb_spec u 0) as [-> | Hu]; simpl; try reflexivity;
    destruct cur; simpl; f_equal; lia.
Qed.

(** The [unusedBytes] a node ends up with: the sum over the truthy values
    applied to it, and no field when there was none. *)
Lemma unusedOf_spec E :
  unusedOf E = if anyOver hasUnused E then Some (sumOver unusedValue E) else None.
Proof. unfold unusedOf. rewrite fold_addUnused. reflexivity. Qed.

Lemma unusedOf_default E : default 0 (unusedOf E) = sumOver unusedValue E.
Proof.
  rewrite unusedOf_spec. destruct (anyOver hasUnused E) eqn:H; simpl; [reflexivity |].
  symmetry. now apply sumOver_no_unused.
Qed.

Lemma unusedOf_present E :
  match unusedOf E with Some _ => true | None => false end = anyOver hasUnused E.
Proof. rewrite unusedOf_spec. now destruct (anyOver hasUnused E). Qed.

(** ** The aggregation invariant *)

Lemma exactAt_sumInvariantAt n : exactAt n -> sumInvariantAt n.
Proof.
  unfold exactAt, sumInvariantAt. destruct (children n) as [kids|]; [| trivial].
  intros [Hrb Hub]. split; [exact Hrb |]. intros (k & Hk & Hpresent).
  rewrite Hub. replace (existsb hasUnusedBytes kids) with true; [reflexivity |].
  symmetry. apply existsb_exists. exists k. split; [exact Hk |].
  unfold hasUnusedBytes. now destruct (unusedBytes k).
Qed.

Lemma Repr_exactAt n E : Repr n E -> PF E -> exactAt n.
Proof.
  intros HR HPF. unfold exactAt. destruct (children n) as [kids|] eqn:Hkids; [| trivial].
  pose proof (Repr_PF_inner _ _ _ HR HPF Hkids) as Hne.
  pose proof (Repr_elim _ _ HR) as (Hrb & Hub & _ & H). rewrite Hkids in H.
  destruct H as (_ & Hnd & Hcov & _ & Hall). rewrite List.Forall_forall in Hall.
  assert (Hk : forall k, In k kids ->
            resourceBytes k = sumOver sd_resourceBytes (below (name k) E) /\
            unusedBytes k = unusedOf (below (name k) E)).
  { intros k Hk. apply Hall, Repr_elim in Hk as (? & ? & _). auto. }
  split.
  - rewrite Hrb. unfold sumResourceBytes.
    rewrite (map_ext_in resourceBytes (fun k => sumOver sd_resourceBytes (below (name k) E)))
      by (intros k Hin; apply (Hk k Hin)).
    apply (sumOver_partition sd_resourceBytes); assumption.
  - rewrite Hub, unusedOf_spec. unfold sumUnusedBytes.
    rewrite (map_ext_in (fun k => default 0 (unusedBytes k))
               (fun k => sumOver unusedValue (below (name k) E)))
      by (intros k Hin; rewrite (proj2 (Hk k Hin)); apply unusedOf_default).
    rewrite <- (sumOver_partition unusedValue) by assumption.
    replace (existsb hasUnusedBytes kids) with (anyOver hasUnused E); [reflexivity |].
    rewrite (anyOver_partition hasUnused kids) by assumption.
    apply existsb_ext_in. intros k Hin. unfold hasUnusedBytes.
    rewrite (proj2 (Hk k Hin)). symmetry. apply unusedOf_present.
Qed.

Lemma buildTree_exactAt sourceRoot sourcesData n :
  prefixFree (pathsOf sourceRoot sourcesData) = true ->
  In n (nodes (buildTree sourceRoot sourcesData)) -> exactAt n.
Proof.
  intros HPF Hn. apply prefixFree_PF in HPF.
  pose proof (buildTree_Repr sourceRoot sourcesData) as HR.
  destruct (Repr_nodes_nodeAt _ _ _ HR Hn) as [path Hpath].
  apply (Repr_exactAt n (belowPath path (entriesOf sourceRoot sourcesData))).
  - now apply (Repr_nodeAt path _ _ _ HR).
  - now apply PF_belowPath.
Qed.

Lemma nodes_child cur kids k m :
  children cur = Some kids -> In k kids -> In m (nodes k) -> In m (nodes cur).
Proof.
  intros Hkids Hk Hm. destruct cur; simpl in *; subst. right.
  apply in_flat_map. eauto.
Qed.

Lemma sumResourceBytes_collapseAll kids :
  sumResourceBytes (map collapseAll kids) = sumResourceBytes kids.
Proof.
  unfold sumResourceBytes. rewrite map_map. f_equal. apply map_ext.
  intros k. apply collapseAll_fields.
Qed.

Lemma sumUnusedBytes_collapseAll kids :
  sumUnusedBytes (map collapseAll kids) = sumUnusedBytes kids.
Proof.
  unfold sumUnusedBytes. rewrite map_map. f_equal. apply map_ext.
  intros k. now destruct (collapseAll_fields k) as (_ & -> & _).
Qed.

(** Merging an only child into its parent keeps the sums right: the parent
    already held what the child holds. *)
Lemma collapseFrom_sumInvariant cur : forall nm rb ub dup,
  (forall n, In n (nodes cur) -> sumInvariantAt n) ->
  rb = resourceBytes cur ->
  (unusedBytes cur <> None -> ub = unusedBytes cur) ->
  forall m, In m (nodes (collapseFrom nm rb ub dup cur)) -> sumInvariantAt m.
Proof.
  induction cur as [? ? ? ? | ? ? ? ? kids IH] using Node_ind';
    intros nm' rb' ub' dup' Hall Hrb Hub m.
  - simpl. intros [<- | []]. exact I.
  - pose proof (Hall _ (or_introl eq_refl)) as Hcur.
    unfold sumInvariantAt in Hcur; cbn [children resourceBytes unusedBytes] in *.
    destruct Hcur as [Hsum Hunused].
    destruct kids as [|k1 [|k2 ks]].
    + simpl. intros [<- | []]. split; [subst; reflexivity |].
      intros (k & [] & _).
    + inversion IH as [|? ? IHk _]; subst.
      rewrite (collapseFrom_one _ _ _ _ _ k1) by reflexivity.
      apply IHk.
      * intros n Hn. apply Hall. eapply nodes_child; [reflexivity | now left | exact Hn].
      * unfold sumResourceBytes; simpl. lia.
      * intros Hk1. rewrite Hub.
        -- rewrite Hunused by (exists k1; split; [now left | exact Hk1]).
           unfold sumUnusedBytes; simpl. destruct (unusedBytes k1); [f_equal; simpl; lia | congruence].
        -- rewrite Hunused by (exists k1; split; [now left | exact Hk1]). discriminate.
    + rewrite (collapseFrom_many _ _ _ _ _ (k1 :: k2 :: ks)) by (simpl; congruence).
      cbn [nodes children]. intros [<- | Hin].
      * unfold sumInvariantAt; cbn [children resourceBytes unusedBytes].
        rewrite sumResourceBytes_collapseAll, sumUnusedBytes_collapseAll.
        split; [congruence |]. intros (k' & Hk' & Hpresent).
        apply in_map_iff in Hk' as (k & <- & Hk).
        destruct (collapseAll_fields k) as (_ & Hubk & _). rewrite Hubk in Hpresent.
        assert (Hex : exists k, In k (k1 :: k2 :: ks) /\ unusedBytes k <> None) by eauto.
        rewrite Hub; rewrite (Hunused Hex); [reflexivity | discriminate].
      * apply in_flat_map in Hin as (k' & Hk' & Hm).
        apply in_map_iff in Hk' as (k & <- & Hk).
        rewrite List.Forall_forall in IH.
        apply (IH k Hk (name k) (resourceBytes k) (unusedBytes k) (duplicate k)); auto.
        intros n Hn. apply Hall. eapply nodes_child; [reflexivity | exact Hk | exact Hn].
Qed.

Lemma collapseAll_sumInvariant t : sumInvariant t -> sumInvariant (collapseAll t).
Proof.
  intros H m. apply collapseFrom_sumInvariant; auto.
Qed.

(** * The claims *)

(** ** C1: the sum invariant *)

(** C1, as stated, fails: with the sources [a], [a/b] and [a/c] the node [a]
    holds 7 bytes over children that hold 2 and 4, in the tree as built and,
    merged into the root, in the tree returned. *)
Lemma sum_invariant_counterexample :
  ~ sumInvariant (buildTree "" overlappingSources) /\
  ~ sumInvariant (prepareTreemapNodes "" overlappingSources).
Proof.
  split; intros H.
  - specialize (H (mkNode "a" 7 None None
                     (Some [mkNode "b" 2 None None None; mkNode "c" 4 None None None]))).
    destruct H as [H _]; [vm_compute; auto | vm_compute in H; discriminate].
  - specialize (H (prepareTreemapNodes "" overlappingSources) (or_introl eq_refl)).
    destruct H as [H _]. vm_compute in H. discriminate.
Qed.

(** C1 (amended): when no source path, cut into segments, is another one cut
    short, every node with children has [resourceBytes] equal to the sum of
    its children's, and [unusedBytes], when a child has the field, equal to
    the sum of the children's with an absent field counted as zero; in the
    tree built by path insertion and in the tree returned after
    [collapseAll]. *)
Theorem sum_invariant_prefix_free sourceRoot sourcesData :
  prefixFree (pathsOf sourceRoot sourcesData) = true ->
  sumInvariant (buildTree sourceRoot sourcesData) /\
  sumInvariant (prepareTreemapNodes sourceRoot sourcesData).
Proof.
  intros HPF.
  assert (H : sumInvariant (buildTree sourceRoot sourcesData)).
  { intros n Hn. apply exactAt_sumInvariantAt. now apply (buildTree_exactAt sourceRoot sourcesData). }
  split; [exact H | now apply collapseAll_sumInvariant].
Qed.

Lemma sum_invariant_prefix_free_witness :
  prefixFree (pathsOf "" twoFiles) = true /\
  sumInvariant (buildTree "" twoFiles) /\
  sumInvariant (prepareTreemapNodes "" twoFiles).
Proof. split; [reflexivity | apply sum_invariant_prefix_free; reflexivity]. Defined.

(** ** C7 and C8: what [collapseAll] leaves *)

(** C7: after [collapseAll] no node of the tree has exactly one child; this
    holds for every node, the root included, so in particular for every node
    other than the root. *)
Theorem collapseAll_no_single_child (t : Node) :
  Forall (fun m => childCount m <> 1%nat) (nodes (collapseAll t)).
Proof.
  apply List.Forall_forall. intros m Hm.
  exact (collapseFrom_no_single t _ _ _ _ m Hm).
Qed.

(** C8: [collapseAll] is idempotent. *)
Theorem collapseAll_idempotent (t : Node) :
  collapseAll (collapseAll t) = collapseAll t.
Proof.
  set (t' := collapseAll t). unfold collapseAll at 1.
  rewrite collapseFrom_fixed.
  - apply node_eta.
  - intros m Hm. exact (collapseFrom_no_single t _ _ _ _ m Hm).
Qed.

(** ** C10: the empty mapping *)

(** C10: on an empty mapping [prepareTreemapNodes] returns the root alone:
    named by the source root, 0 bytes, no [unusedBytes], no [duplicate], no
    children. *)
Theorem prepareTreemapNodes_empty (sourceRoot : string) :
  prepareTreemapNodes sourceRoot [] = mkNode sourceRoot 0 None None None.
Proof. reflexivity. Qed.

(** ** C5: stripping the source root *)

(** C5, as stated, fails: [src] is not a prefix of [lib/src/a.js], yet the
    replace removes its first occurrence and the path splits differently. *)
Lemma strip_non_prefix_counterexample :
  String.prefix "src" "lib/src/a.js" = false /\
  replace "lib/src/a.js" "src" "" = "lib//a.js" /\
  replace "lib/src/a.js" "src" "" <> "lib/src/a.js" /\
  sourcePathSegments "src" "lib/src/a.js" <> split "lib/src/a.js".
Proof. repeat split; try reflexivity; vm_compute; discriminate. Qed.

(** C5 (amended): a source root that occurs nowhere in the path leaves the
    path unchanged before it is split. *)
Theorem strip_absent_root_unchanged (sourceRoot source : string) :
  occursIn sourceRoot source = false ->
  replace source sourceRoot "" = source /\
  sourcePathSegments sourceRoot source = split source.
Proof.
  intros H.
  assert (Hr : replace source sourceRoot "" = source).
  { induction source as [|c source IH]; simpl in *;
      apply orb_false_iff in H as [Hp Ho]; rewrite Hp; [reflexivity |].
    f_equal. apply IH, Ho. }
  split; [exact Hr |]. unfold sourcePathSegments. now rewrite Hr.
Qed.

Lemma strip_absent_root_unchanged_witness :
  occursIn "out/" "lib/src/a.js" = false /\
  replace "lib/src/a.js" "out/" "" = "lib/src/a.js" /\
  sourcePathSegments "out/" "lib/src/a.js" = split "lib/src/a.js".
Proof. split; [reflexivity | apply strip_absent_root_unchanged; reflexivity]. Defined.

(** ** C4: path reconstruction *)

Lemma prefix_dropChars root source :
  String.prefix root source = true ->
  source = root +:+ dropChars (String.length root) source.
Proof.
  revert source. induction root as [|a root IH]; intros [|b source]; simpl;
    try reflexivity; try discriminate.
  destruct (ascii_dec a b) as [-> | _]; [| discriminate].
  intros H. change (String b source = String b (root +:+ dropChars (String.length root) source)).
  f_equal. now apply IH.
Qed.

Lemma replace_prefix root source :
  String.prefix root source = true ->
  replace source root "" = dropChars (String.length root) source.
Proof. intros H. destruct source; cbn [replace]; rewrite H; reflexivity. Qed.

Lemma splitFrom_flag s :
  match s with String c _ => isSlash c | EmptyString => false end = false ->
  splitFrom true s = splitFrom false s.
Proof. destruct s as [|c s]; simpl; [reflexivity |]. now intros ->. Qed.

Lemma join_cons seg segments :
  segments <> [] -> join (seg :: segments) = seg +:+ "/" +:+ join segments.
Proof. destruct segments; [congruence | reflexivity]. Qed.

Lemma join_cons_char c seg rest :
  join (String c seg :: rest) = String c (join (seg :: rest)).
Proof. destruct rest; reflexivity. Qed.

(** Without two slashes in a row, joining the segments gives the string back. *)
Lemma join_split s : noDoubleSlash s = true -> join (split s) = s.
Proof.
  unfold split. induction s as [|c s IH]; [reflexivity |].
  cbn [noDoubleSlash splitFrom]. intros H.
  apply andb_true_iff in H as [Hc Hs]. specialize (IH Hs).
  destruct (isSlash c) eqn:Hslash.
  - simpl in Hc. apply negb_true_iff in Hc.
    rewrite (splitFrom_flag s Hc), join_cons by apply splitFrom_nonempty.
    rewrite IH. assert (c = "/"%char) as -> by now apply Ascii.eqb_eq.
    reflexivity.
  - destruct (splitFrom false s) as [|seg rest] eqn:Hsplit.
    + now apply splitFrom_nonempty in Hsplit.
    + rewrite join_cons_char. now rewrite IH.
Qed.

Lemma Repr_walk path : forall t E data,
  Repr t E -> In (path, data) E ->
  exists walked n,
    walk path t = Some walked /\ map name walked = path /\ nodeAt path t = Some n.
Proof.
  induction path as [|segment path IH]; intros t E data HR Hin.
  - exists [], t. auto.
  - destruct (Repr_kids _ _ HR) as (Hnd & Hcov & Hkid).
    pose proof (Hcov _ _ _ Hin) as Hk. apply in_map_iff in Hk as (k & Hname & Hk).
    destruct (Hkid k Hk) as [_ HRk]. subst segment.
    destruct (IH k _ data HRk) as (walked & n & Hw & Hnames & Hat); [now apply in_below |].
    exists (k :: walked), n. cbn [walk nodeAt].
    rewrite (find_hasName_NoDup _ _ Hnd Hk), Hw. simpl. rewrite Hnames. auto.
Qed.

Lemma isProperPrefix_app p : forall segment rest,
  isProperPrefix p (p ++ segment :: rest) = true.
Proof.
  induction p as [|s p IH]; intros segment rest; simpl; [reflexivity |].
  now rewrite String.eqb_refl, IH.
Qed.

(** The node at a path that no entry extends has no children. *)
Lemma Repr_nodeAt_leaf path t E n :
  Repr t E -> nodeAt path t = Some n ->
  (forall q d, In (q, d) E -> isProperPrefix path q = false) ->
  children n = None.
Proof.
  intros HR Hat Hext. apply (Repr_nodeAt path _ _ _ HR) in Hat.
  apply Repr_elim in Hat as (_ & _ & _ & H).
  destruct (children n) as [kids|]; [exfalso | reflexivity].
  destruct H as (Hne & _ & _ & Hbel & _).
  destruct kids as [|k ks]; [congruence |].
  specialize (Hbel k (or_introl eq_refl)).
  destruct (below (name k) (belowPath path E)) as [|[r d] B] eqn:HB; [congruence |].
  assert (Hin : In (path ++ name k :: r, d) E).
  { apply in_belowPath, in_below. rewrite HB. now left. }
  apply Hext in Hin. now rewrite isProperPrefix_app in Hin.
Qed.

Lemma nodeAt_leafPaths path : forall t n,
  nodeAt path t = Some n -> children n = None -> In path (leafPaths t).
Proof.
  induction path as [|segment path IH]; intros t n; simpl.
  - intros [= <-] Hleaf. destruct t; simpl in *; subst. now left.
  - destruct (find _ _) as [child|] eqn:Hfind; [| discriminate].
    apply find_hasName_Some in Hfind as [Hin <-]. intros Hat Hleaf.
    destruct t as [? ? ? ? [kids|]]; simpl in *; [| contradiction].
    apply in_flat_map. exists child. split; [exact Hin |].
    apply in_map. now apply (IH child n).
Qed.

(** C4, as stated, fails: the path [a//b.js] is cut into [a] and [b.js], and
    the only walk of the tree gives [a/b.js] back (or [/a/b.js], the root's
    empty name joined in). *)
Lemma path_reconstruction_counterexample :
  In ("a//b.js", mkSourceData 1 None None) doubleSlashSource /\
  ~ In "a//b.js"
      (map (fun names => "" +:+ join names) (leafPaths (buildTree "" doubleSlashSource))) /\
  ~ In "a//b.js"
      (map (fun names => join ("" :: names)) (leafPaths (buildTree "" doubleSlashSource))).
Proof.
  split; [now left |]. split; vm_compute; intros [H | []]; discriminate.
Qed.

(** C4 (amended): for a non-empty input path that starts with the source
    root and has no two slashes in a row after it, the names of the nodes
    along the walk of its segments in the uncompressed tree, joined by [/]
    and prefixed by the source root, give the path back; the walk ends at a
    leaf when no input path extends this one. *)
Theorem path_reconstruction sourceRoot sourcesData source data :
  In (source, data) sourcesData ->
  source <> "" ->
  String.prefix sourceRoot source = true ->
  noDoubleSlash (dropChars (String.length sourceRoot) source) = true ->
  exists walked,
    walk (sourcePathSegments sourceRoot source) (buildTree sourceRoot sourcesData)
      = Some walked /\
    name (buildTree sourceRoot sourcesData) +:+ join (map name walked) = source /\
    (forallb (fun q => negb (isProperPrefix (sourcePathSegments sourceRoot source) q))
       (pathsOf sourceRoot sourcesData) = true ->
     In (map name walked) (leafPaths (buildTree sourceRoot sourcesData))).
Proof.
  intros Hin Hne Hprefix Hslash.
  pose proof (buildTree_Repr sourceRoot sourcesData) as HR.
  assert (Hsrc : sourceOrUnmapped source = source).
  { unfold sourceOrUnmapped. destruct (String.eqb_spec source ""); congruence. }
  assert (Hentry : In (sourcePathSegments sourceRoot source, data)
                     (entriesOf sourceRoot sourcesData)).
  { apply in_map_iff. exists (source, data). split; [| exact Hin].
    unfold entryOf; simpl. now rewrite Hsrc. }
  destruct (Repr_walk _ _ _ _ HR Hentry) as (walked & n & Hw & Hnames & Hat).
  exists walked. split; [exact Hw |]. split.
  - rewrite buildTree_name, Hnames. unfold sourcePathSegments.
    rewrite (replace_prefix _ _ Hprefix), (join_split _ Hslash).
    symmetry. now apply prefix_dropChars.
  - intros Hext. rewrite Hnames. apply (nodeAt_leafPaths _ _ n Hat).
    apply (Repr_nodeAt_leaf _ _ _ _ HR Hat). intros q d Hq.
    rewrite forallb_forall in Hext. apply negb_true_iff, Hext.
    unfold pathsOf. now apply (in_map fst) in Hq.
Qed.

Lemma path_reconstruction_witness :
  exists walked,
    walk (sourcePathSegments "src" "src/a/b.js") (buildTree "src" rootedFiles) = Some walked /\
    name (buildTree "src" rootedFiles) +:+ join (map name walked) = "src/a/b.js" /\
    (forallb (fun q => negb (isProperPrefix (sourcePathSegments "src" "src/a/b.js") q))
       (pathsOf "src" rootedFiles) = true ->
     In (map name walked) (leafPaths (buildTree "src" rootedFiles))).
Proof.
  apply (path_reconstruction "src" rootedFiles "src/a/b.js" (mkSourceData 100 (Some 30) None)).
  - now left.
  - discriminate.
  - reflexivity.
  - reflexivity.
Defined.

(** ** Where the nodes of the returned tree come from *)

(** Every node of a compressed tree is the compression of a node of the
    tree: the top of the chain it absorbed. *)
Lemma collapseFrom_nodes cur : forall nm rb ub dup m,
  In m (nodes (collapseFrom nm rb ub dup cur)) ->
  m = collapseFrom nm rb ub dup cur \/
  exists n, In n (nodes cur) /\ m = collapseAll n.
Proof.
  induction cur as [? ? ? ? | ? ? ? ? kids IH] using Node_ind'; intros nm' rb' ub' dup' m.
  - simpl. intros [<- | []]. now left.
  - destruct kids as [|k1 [|k2 ks]].
    + simpl. intros [<- | []]. now left.
    + inversion IH as [|? ? IHk _]; subst.
      rewrite (collapseFrom_one _ _ _ _ _ k1) by reflexivity.
      intros Hm. destruct (IHk _ _ _ _ _ Hm) as [-> | (n & Hn & ->)]; [now left | right].
      exists n. split; [| reflexivity].
      eapply nodes_child; [reflexivity | now left | exact Hn].
    + rewrite (collapseFrom_many _ _ _ _ _ (k1 :: k2 :: ks)) by (simpl; congruence).
      intros Hin. cbn [nodes children] in Hin. destruct Hin as [<- | Hin]; [now left | right].
      apply in_flat_map in Hin as (k' & Hk' & Hm).
      apply in_map_iff in Hk' as (k & <- & Hk).
      rewrite List.Forall_forall in IH.
      destruct (IH k Hk _ _ _ _ _ Hm) as [-> | (n & Hn & ->)].
      * exists k. split; [| reflexivity].
        eapply nodes_child; [reflexivity | exact Hk | destruct k; now left].
      * exists n. split; [| reflexivity].
        eapply nodes_child; [reflexivity | exact Hk | exact Hn].
Qed.

Lemma collapseAll_nodes t m :
  In m (nodes (collapseAll t)) -> exists n, In n (nodes t) /\ m = collapseAll n.
Proof.
  intros Hm. destruct (collapseFrom_nodes t _ _ _ _ m Hm) as [-> | H]; [| exact H].
  exists t. split; [destruct t; now left | reflexivity].
Qed.

(** The nodes of the returned tree, each with the position of the node it
    comes from in the tree as built. *)
Lemma prepareTreemapNodes_origin sourceRoot sourcesData m :
  In m (nodes (prepareTreemapNodes sourceRoot sourcesData)) ->
  exists path n,
    nodeAt path (buildTree sourceRoot sourcesData) = Some n /\ m = collapseAll n.
Proof.
  intros Hm. apply collapseAll_nodes in Hm as (n & Hn & ->).
  destruct (Repr_nodes_nodeAt _ _ _ (buildTree_Repr sourceRoot sourcesData) Hn) as [path Hat].
  eauto.
Qed.

Lemma isPrefix_app p : forall rest, isPrefix p (p ++ rest) = true.
Proof.
  induction p as [|s p IH]; intros rest; simpl; [reflexivity |].
  now rewrite String.eqb_refl, IH.
Qed.

Lemma isPrefix_split p : forall q, isPrefix p q = true -> exists rest, q = p ++ rest.
Proof.
  induction p as [|s p IH]; intros q; simpl; [now exists q |].
  destruct q as [|t q]; [discriminate |]. intros H.
  apply andb_true_iff in H as [Hs Hp]. apply String.eqb_eq in Hs as ->.
  destruct (IH q Hp) as [rest ->]. now exists rest.
Qed.

(** The entries that go through the node at [path], back as sources. *)
Lemma in_belowPath_source sourceRoot sourcesData path rest data :
  In (rest, data) (belowPath path (entriesOf sourceRoot sourcesData)) <->
  exists source,
    In (source, data) sourcesData /\
    sourcePathSegments sourceRoot (sourceOrUnmapped source) = path ++ rest.
Proof.
  rewrite in_belowPath. unfold entriesOf. rewrite in_map_iff. split.
  - intros ([source d] & Heq & Hin). unfold entryOf in Heq; simpl in Heq.
    inversion Heq; subst. eauto.
  - intros (source & Hin & Heq). exists (source, data). split; [| exact Hin].
    unfold entryOf; simpl. now rewrite Heq.
Qed.

(** ** C3: presence of [unusedBytes] *)

Lemma Repr_nodeAt_entry path : forall t E n,
  Repr t E -> nodeAt path t = Some n ->
  path = [] \/ exists rest data, In (path ++ rest, data) E.
Proof.
  destruct path as [|segment path]; [now left |]. intros t E n HR Hat. right.
  revert segment t E n HR Hat.
  induction path as [|segment' path IH]; intros segment t E n HR; cbn [nodeAt];
    destruct (find _ _) as [child|] eqn:Hfind; try discriminate;
    apply find_hasName_Some in Hfind as [Hin <-];
    destruct (proj2 (proj2 (Repr_kids _ _ HR)) child Hin) as [Hne HRc].
  - intros _. destruct (below (name child) E) as [|[r d] B] eqn:HB; [congruence |].
    exists r, d. apply in_below. rewrite HB. now left.
  - intros Hat. destruct (IH segment' child _ n HRc Hat) as (rest & data & Hrest).
    exists rest, data. now apply in_below.
Qed.

(** C3, as stated, fails: the only source has [unusedBytes] defined, with
    value 0, and the tree returned for it has no [unusedBytes]. *)
Lemma unusedBytes_defined_counterexample :
  ~ unusedPresentIff isDefined "" zeroUnused.
Proof.
  intros H.
  destruct (H (prepareTreemapNodes "" zeroUnused) (or_introl eq_refl))
    as (path & n & Hat & _ & Hiff).
  apply (proj2 Hiff); [| reflexivity].
  exists "a.js", (mkSourceData 10 (Some 0) None).
  split; [now left |]. split; [| reflexivity].
  destruct (Repr_nodeAt_entry _ _ _ _ (buildTree_Repr "" zeroUnused) Hat)
    as [-> | (rest & data & [Heq | []])]; [reflexivity |].
  assert (Hpath : sourcePathSegments "" (sourceOrUnmapped "a.js") = path ++ rest)
    by now inversion Heq.
  rewrite Hpath. apply isPrefix_app.
Qed.

(** C3 (amended): a node of the returned tree carries [unusedBytes] if and
    only if one of the sources that go through it has an [unusedBytes] that
    is defined and not zero; a source without the field, or with zero, never
    makes the field appear. *)
Theorem unusedBytes_present_iff sourceRoot sourcesData m :
  In m (nodes (prepareTreemapNodes sourceRoot sourcesData)) ->
  exists path n,
    nodeAt path (buildTree sourceRoot sourcesData) = Some n /\
    m = collapseAll n /\
    (unusedBytes m <> None <->
     exists source data,
       In (source, data) sourcesData /\
       isPrefix path (sourcePathSegments sourceRoot (sourceOrUnmapped source)) = true /\
       hasUnused data = true).
Proof.
  intros Hm. destruct (prepareTreemapNodes_origin _ _ _ Hm) as (path & n & Hat & ->).
  exists path, n. split; [exact Hat |]. split; [reflexivity |].
  pose proof (Repr_nodeAt path _ _ _ (buildTree_Repr sourceRoot sourcesData) Hat) as HR.
  apply Repr_elim in HR as (_ & Hub & _).
  destruct (collapseAll_fields n) as (_ & -> & _). rewrite Hub, unusedOf_spec.
  destruct (anyOver hasUnused _) eqn:Hany.
  - split; [intros _ | discriminate].
    apply existsb_exists in Hany as ([rest data] & Hin & Hu).
    apply in_belowPath_source in Hin as (source & Hin & Hsegs).
    exists source, data. split; [exact Hin |]. split; [| exact Hu].
    rewrite Hsegs. apply isPrefix_app.
  - split; [congruence |]. intros (source & data & Hin & Hpre & Hu). exfalso.
    apply isPrefix_split in Hpre as [rest Hsegs].
    assert (Hany' : anyOver hasUnused
              (belowPath path (entriesOf sourceRoot sourcesData)) = true).
    { apply existsb_exists. exists (rest, data). split; [| exact Hu].
      apply in_belowPath_source. eauto. }
    congruence.
Qed.

Lemma unusedBytes_present_iff_witness :
  exists path n,
    nodeAt path (buildTree "" twoFiles) = Some n /\
    prepareTreemapNodes "" twoFiles = collapseAll n /\
    (unusedBytes (prepareTreemapNodes "" twoFiles) <> None <->
     exists source data,
       In (source, data) twoFiles /\
       isPrefix path (sourcePathSegments "" (sourceOrUnmapped source)) = true /\
       hasUnused data = true).
Proof.
  apply (unusedBytes_present_iff "" twoFiles (prepareTreemapNodes "" twoFiles)).
  now left.
Defined.

(** ** C6: where a [duplicate] can sit *)

Lemma fold_endDuplicate E : forall cur key,
  fold_left (fun cur e => endDuplicate e cur) E cur = Some key ->
  cur = Some key \/ exists data, In ([], data) E /\ sd_duplicate data = Some key.
Proof.
  induction E as [|[segments data] E IH]; intros cur key; cbn [fold_left]; [now left |].
  intros H. destruct (IH _ _ H) as [Hcur | (d & Hin & Hd)].
  - unfold endDuplicate in Hcur; cbn [fst snd] in Hcur.
    destruct segments as [|? ?]; [| now left].
    destruct (sd_duplicate data) as [k|] eqn:Hk; [| now left].
    right. exists data. split; [now left | congruence].
  - right. exists d. split; [now right | exact Hd].
Qed.

Lemma dupOf_Some E key :
  dupOf E = Some key -> exists data, In ([], data) E /\ sd_duplicate data = Some key.
Proof.
  intros H. destruct (fold_endDuplicate E None key H) as [Hnone | Hex];
    [discriminate | exact Hex].
Qed.

(** C6, as stated, fails: with the source [a] next to [a/b] and [a/c], the
    node [a] of the returned tree carries the duplicate key of the source
    [a] and has the children [b] and [c]: an internal, aggregated node, onto
    which nothing was collapsed. *)
Lemma duplicate_on_internal_node_counterexample :
  exists m,
    In m (nodes (prepareTreemapNodes "" duplicateDirectory)) /\
    name m = "a" /\
    resourceBytes m = 7 /\
    duplicate m = Some "k" /\
    childCount m = 2%nat.
Proof.
  exists (mkNode "a" 7 None (Some "k")
            (Some [mkNode "b" 2 None None None; mkNode "c" 4 None None None])).
  split; [vm_compute; auto | repeat split].
Qed.

(** C6 (amended): when no source path, cut into segments, is another one cut
    short, only a node that corresponds to an exact source carries a
    duplicate key, and no internal node does: a node of the returned tree
    with a duplicate key has no children and is the very node, unchanged by
    the compression, at which the walk of a source with that key ends. *)
Theorem duplicate_only_on_exact_leaf sourceRoot sourcesData m key :
  prefixFree (pathsOf sourceRoot sourcesData) = true ->
  In m (nodes (prepareTreemapNodes sourceRoot sourcesData)) ->
  duplicate m = Some key ->
  children m = None /\
  exists source data,
    In (source, data) sourcesData /\
    sd_duplicate data = Some key /\
    nodeAt (sourcePathSegments sourceRoot (sourceOrUnmapped source))
      (buildTree sourceRoot sourcesData) = Some m.
Proof.
  intros HPF Hm Hdup. apply prefixFree_PF in HPF.
  destruct (prepareTreemapNodes_origin _ _ _ Hm) as (path & n & Hat & ->).
  pose proof (Repr_nodeAt path _ _ _ (buildTree_Repr sourceRoot sourcesData) Hat) as HR.
  destruct (collapseAll_fields n) as (_ & _ & Hd). rewrite Hd in Hdup.
  pose proof (Repr_elim _ _ HR) as (_ & _ & HdupOf & _). rewrite HdupOf in Hdup.
  apply dupOf_Some in Hdup as (data & Hin & Hkey).
  assert (Hleaf : children n = None).
  { destruct (children n) as [kids|] eqn:Hkids; [exfalso | reflexivity].
    apply (Repr_PF_inner _ _ _ HR (PF_belowPath path _ HPF) Hkids [] data Hin).
    reflexivity. }
  rewrite (collapseAll_leaf n Hleaf). split; [exact Hleaf |].
  apply in_belowPath_source in Hin as (source & Hin & Hsegs).
  exists source, data. rewrite Hsegs, app_nil_r. auto.
Qed.

Lemma duplicate_only_on_exact_leaf_witness :
  children (mkNode "b.js" 100 None (Some "b.js") None) = None /\
  exists source data,
    In (source, data) duplicateFiles /\
    sd_duplicate data = Some "b.js" /\
    nodeAt (sourcePathSegments "" (sourceOrUnmapped source)) (buildTree "" duplicateFiles)
      = Some (mkNode "b.js" 100 None (Some "b.js") None).
Proof.
  apply (duplicate_only_on_exact_leaf "" duplicateFiles
           (mkNode "b.js" 100 None (Some "b.js") None) "b.js").
  - reflexivity.
  - vm_compute. auto.
  - reflexivity.
Defined.

(** ** C2: what compression does to the leaves *)

Lemma map_flat_map {A B C} (f : B -> C) (g : A -> list B) l :
  map f (flat_map g l) = flat_map (fun x => map f (g x)) l.
Proof. induction l as [|x l IH]; simpl; [reflexivity |]. now rewrite map_app, IH. Qed.

Lemma flat_map_ext_in {A B} (f g : A -> list B) l :
  (forall x, In x l -> f x = g x) -> flat_map f l = flat_map g l.
Proof.
  induction l as [|x l IH]; simpl; intros H; [reflexivity |].
  rewrite (H x), IH; auto.
Qed.

(** When every node holds exactly what its children hold, an only child
    merged into its parent leaves the parent with the child's bytes. *)
Lemma collapseFrom_leafBytes cur : forall nm rb ub dup,
  (forall n, In n (nodes cur) -> exactAt n) ->
  rb = resourceBytes cur -> ub = unusedBytes cur ->
  map leafBytes (leaves (collapseFrom nm rb ub dup cur)) = map leafBytes (leaves cur).
Proof.
  induction cur as [? ? ? ? | ? ? ? ? kids IH] using Node_ind';
    intros nm' rb' ub' dup' Hall Hrb Hub.
  - simpl. unfold leafBytes; simpl. now subst.
  - pose proof (Hall _ (or_introl eq_refl)) as Hcur.
    unfold exactAt in Hcur; cbn [children resourceBytes unusedBytes] in *.
    destruct Hcur as [Hsum Hunused].
    destruct kids as [|k1 [|k2 ks]].
    + reflexivity.
    + inversion IH as [|? ? IHk _]; subst.
      rewrite (collapseFrom_one _ _ _ _ _ k1) by reflexivity.
      cbn [leaves children flat_map]. rewrite app_nil_r. apply IHk.
      * intros n Hn. apply Hall. eapply nodes_child; [reflexivity | now left | exact Hn].
      * unfold sumResourceBytes; simpl. lia.
      * unfold sumUnusedBytes, hasUnusedBytes; simpl.
        destruct (unusedBytes k1); simpl; [f_equal; lia | reflexivity].
    + rewrite (collapseFrom_many _ _ _ _ _ (k1 :: k2 :: ks)) by (simpl; congruence).
      cbn [leaves children]. rewrite !map_flat_map, flat_map_concat_map, map_map.
      rewrite <- flat_map_concat_map. apply flat_map_ext_in. intros k Hk.
      rewrite List.Forall_forall in IH. apply (IH k Hk); auto.
      intros n Hn. apply Hall. eapply nodes_child; [reflexivity | exact Hk | exact Hn].
Qed.

(** C2 (code bug): the claim holds of the bytes and fails of the duplicate
    key, on a mapping where no source is a directory of another.  The
    source [a/b.js] has the duplicate key [b.js] and is the only source
    below [a]; [c.js] has none.  Path insertion puts the key on the leaf
    [b.js]; [collapseAll] merges that leaf into [a] by taking its name and
    its children and not its [duplicate], so the leaf [a/b.js] of the tree
    returned has the bytes of the leaf and no duplicate key. *)
Example collapseAll_only_child_duplicate :
  map leafData (leaves (buildTree "" onlyChildDuplicate))
    = [(10, None, Some "b.js"); (5, None, None)] /\
  map leafData (leaves (collapseAll (buildTree "" onlyChildDuplicate)))
    = [(10, None, None); (5, None, None)] /\
  map name (leaves (collapseAll (buildTree "" onlyChildDuplicate))) = ["a/b.js"; "c.js"] /\
  prepareTreemapNodes "" onlyChildDuplicate
    = mkNode "" 15 None None
        (Some [mkNode "a/b.js" 10 None None None; mkNode "c.js" 5 None None None]).
Proof. repeat split; reflexivity. Qed.

(** When a source is also the directory of the only source below it, the
    node merged from the two holds the bytes of both: the leaf [b] is built
    with 2 bytes under [a], which holds 3, and the leaf [a/b] has 3. *)
Example collapseAll_only_child_of_source :
  map leafData (leaves (buildTree "" fileOverOnlyChild)) = [(2, None, None); (1, None, None)] /\
  map leafData (leaves (collapseAll (buildTree "" fileOverOnlyChild)))
    = [(3, None, None); (1, None, None)].
Proof. split; reflexivity. Qed.

(** X21: when no source path, cut into segments, is another one cut short,
    [collapseAll] keeps the bytes of the leaves: the leaves of the
    compressed tree carry, one for one and in order, the [resourceBytes] and
    [unusedBytes] of the leaves of the tree built by path insertion. *)
Theorem leaf_bytes_preserved sourceRoot sourcesData :
  prefixFree (pathsOf sourceRoot sourcesData) = true ->
  map leafBytes (leaves (collapseAll (buildTree sourceRoot sourcesData)))
    = map leafBytes (leaves (buildTree sourceRoot sourcesData)).
Proof.
  intros HPF. apply collapseFrom_leafBytes; auto.
  intros n Hn. now apply (buildTree_exactAt sourceRoot sourcesData).
Qed.

Lemma leaf_bytes_preserved_witness :
  map leafBytes (leaves (collapseAll (buildTree "" onlyChildDuplicate)))
    = map leafBytes (leaves (buildTree "" onlyChildDuplicate)).
Proof. apply leaf_bytes_preserved. reflexivity. Defined.

(** ** makeRootNodes *)

Lemma fold_push_In (f : string -> RootNodeContainer) scriptElements :
  forall start scriptElement s,
  In scriptElement scriptElements -> externalSrc scriptElement = Some s ->
  In (f s)
     (fold_left
        (fun rootNodeContainers scriptElement =>
           match externalSrc scriptElement with
           | None => rootNodeContainers
           | Some s => rootNodeContainers ++ [f s]
           end)
        scriptElements start).
Proof.
  assert (Hkeep : forall els start x, In x start ->
            In x (fold_left
                    (fun rootNodeContainers scriptElement =>
                       match externalSrc scriptElement with
                       | None => rootNodeContainers
                       | Some s => rootNodeContainers ++ [f s]
                       end) els start)).
  { induction els as [|el els IH]; intros start x Hx; simpl; [exact Hx |].
    apply IH. destruct (externalSrc el); [apply in_app_iff; now left | exact Hx]. }
  induction scriptElements as [|el els IH]; intros start scriptElement s Hin Hsrc;
    [contradiction |].
  destruct Hin as [-> | Hin]; simpl.
  - rewrite Hsrc. apply Hkeep, in_app_iff. right. now left.
  - now apply (IH _ scriptElement).
Qed.

(** C9: for an external script whose [src] matches no bundle, or has no
    coverage in [JsUsage], the list returned holds a container named by
    the [src] whose node is a leaf named by the [src], with the length of
    the [src] as [resourceBytes] and no other field. *)
Theorem makeRootNodes_placeholder {ScriptCoverage Duplication : Type}
    (unusedJavascriptSummary : string -> list ScriptCoverage -> Bundle -> Summary)
    (normalizeSource : string -> string)
    (artifacts : Artifacts ScriptCoverage) (bundles : list Bundle)
    (duplicationByPath : gmap string Duplication)
    (scriptElement : ScriptElement) (s : string) :
  In scriptElement (ScriptElements artifacts) ->
  src scriptElement = Some s ->
  s <> "" ->
  find (bundleOf s) bundles = None \/ JsUsage artifacts !! s = None ->
  In (mkRootNodeContainer s (mkNode s (Z.of_nat (String.length s)) None None None))
     (makeRootNodes unusedJavascriptSummary normalizeSource artifacts bundles
        duplicationByPath).
Proof.
  intros Hin Hsrc Hne Hmissing.
  assert (Hext : externalSrc scriptElement = Some s).
  { unfold externalSrc. rewrite Hsrc. now destruct (String.eqb_spec s ""). }
  assert (Hroot : rootNodeFor unusedJavascriptSummary normalizeSource artifacts bundles
                    duplicationByPath s =
            mkRootNodeContainer s (mkNode s (Z.of_nat (String.length s)) None None None)).
  { unfold rootNodeFor. destruct Hmissing as [-> | ->]; [reflexivity |].
    now destruct (find (bundleOf s) bundles). }
  rewrite <- Hroot. unfold makeRootNodes.
  now apply (fold_push_In
               (rootNodeFor unusedJavascriptSummary normalizeSource artifacts bundles
                  duplicationByPath) _ _ scriptElement).
Qed.

Lemma makeRootNodes_placeholder_witness :
  In (mkRootNodeContainer "https://example.com/app.js"
        (mkNode "https://example.com/app.js" 26 None None None))
     (makeRootNodes (Duplication := unit) (fun _ _ _ => mkSummary 0 0 None)
        (fun source => source) pageWithOneScript [] ∅).
Proof.
  apply (makeRootNodes_placeholder (fun _ _ _ => mkSummary 0 0 None)
           (fun source => source) pageWithOneScript [] ∅
           (mkScriptElement (Some "https://example.com/app.js") None)
           "https://example.com/app.js").
  - right. now left.
  - reflexivity.
  - discriminate.
  - left. reflexivity.
Defined.


(** * Further properties *)

(** ** What every node holds *)

Lemma filter_all {A} (l : list A) : List.filter (fun _ => true) l = l.
Proof. induction l as [|x l IH]; simpl; congruence. Qed.

Lemma below_filter segment path E :
  map snd (List.filter (fun e => isPrefix path (fst e)) (below segment E)) =
  map snd (List.filter (fun e => isPrefix (segment :: path) (fst e)) E).
Proof.
  induction E as [|[[|seg rest] data] E IH]; simpl; [reflexivity | exact IH |].
  rewrite (String.eqb_sym segment seg).
  destruct (String.eqb seg segment); simpl; [| exact IH].
  destruct (isPrefix path rest); simpl; now rewrite IH.
Qed.

Lemma belowPath_filter path : forall E,
  map snd (belowPath path E) = map snd (List.filter (fun e => isPrefix path (fst e)) E).
Proof.
  induction path as [|segment path IH]; intros E; simpl.
  - now rewrite filter_all.
  - rewrite IH. apply below_filter.
Qed.

Lemma belowPath_sources sourceRoot path sourcesData :
  map snd (belowPath path (entriesOf sourceRoot sourcesData)) =
  sourcesThrough sourceRoot path sourcesData.
Proof.
  rewrite belowPath_filter. unfold sourcesThrough, entriesOf.
  induction sourcesData as [|entry sourcesData IH]; simpl; [reflexivity |].
  destruct (isPrefix path _); simpl; now rewrite IH.
Qed.

Lemma sumResource_data E : sumResource E = sumZ (map sd_resourceBytes (map snd E)).
Proof. unfold sumResource. now rewrite map_map. Qed.

Lemma unusedOf_data E : unusedOf E = unusedTotal (map snd E).
Proof.
  rewrite unusedOf_spec. unfold unusedTotal, anyOver, sumOver.
  rewrite map_map. replace (existsb hasUnused (map snd E))
    with (existsb (fun e : Entry => hasUnused (snd e)) E); [reflexivity |].
  induction E as [|e E IH]; simpl; congruence.
Qed.

(** X1: whatever the mapping, a node of the tree built by path insertion
    holds as [resourceBytes] the sum over the sources that go through its
    position, and as [unusedBytes] the sum of their truthy values, or no
    field when none of them has one. *)
Theorem node_aggregates sourceRoot sourcesData path n :
  nodeAt path (buildTree sourceRoot sourcesData) = Some n ->
  resourceBytes n = sumZ (map sd_resourceBytes (sourcesThrough sourceRoot path sourcesData)) /\
  unusedBytes n = unusedTotal (sourcesThrough sourceRoot path sourcesData).
Proof.
  intros Hat.
  apply (Repr_nodeAt path _ _ _ (buildTree_Repr sourceRoot sourcesData)) in Hat.
  apply Repr_elim in Hat as (Hrb & Hub & _).
  rewrite Hrb, Hub, sumResource_data, unusedOf_data, belowPath_sources. auto.
Qed.

Lemma node_aggregates_witness :
  resourceBytes (mkNode "a" 150 (Some 30) None
                   (Some [mkNode "b.js" 100 (Some 30) None None;
                          mkNode "c.js" 50 None None None]))
    = sumZ (map sd_resourceBytes (sourcesThrough "" ["a"] twoFiles)) /\
  unusedBytes (mkNode "a" 150 (Some 30) None
                 (Some [mkNode "b.js" 100 (Some 30) None None;
                        mkNode "c.js" 50 None None None]))
    = unusedTotal (sourcesThrough "" ["a"] twoFiles).
Proof. apply node_aggregates. reflexivity. Defined.

(** X2: the root of the tree returned by [prepareTreemapNodes] holds the
    totals of the whole mapping: the sum of all [resourceBytes], and the sum
    of the truthy [unusedBytes] or no field. *)
Theorem prepareTreemapNodes_totals sourceRoot sourcesData :
  resourceBytes (prepareTreemapNodes sourceRoot sourcesData)
    = sumZ (map sd_resourceBytes (map snd sourcesData)) /\
  unusedBytes (prepareTreemapNodes sourceRoot sourcesData)
    = unusedTotal (map snd sourcesData).
Proof.
  unfold prepareTreemapNodes.
  destruct (collapseAll_fields (buildTree sourceRoot sourcesData)) as (-> & -> & _).
  pose proof (Repr_elim _ _ (buildTree_Repr sourceRoot sourcesData)) as (Hrb & Hub & _).
  rewrite Hrb, Hub, sumResource_data, unusedOf_data.
  replace (map snd (entriesOf sourceRoot sourcesData)) with (map snd sourcesData); [auto |].
  unfold entriesOf. rewrite map_map. reflexivity.
Qed.

(** ** The order of the mapping *)

Lemma nodeAt_app path : forall rest t n,
  nodeAt (path ++ rest) t = Some n -> exists m, nodeAt path t = Some m.
Proof.
  induction path as [|segment path IH]; intros rest t n; simpl; [eauto |].
  destruct (find _ _); [apply IH | discriminate].
Qed.

(** There is a node at a path exactly when the path is empty or a source
    goes through it. *)
Lemma Repr_nodeAt_exists t E path rest data :
  Repr t E -> In (path ++ rest, data) E -> exists n, nodeAt path t = Some n.
Proof.
  intros HR Hin. destruct (Repr_walk _ _ _ _ HR Hin) as (_ & n & _ & _ & Hat).
  now apply nodeAt_app in Hat.
Qed.

Lemma sourcesThrough_Permutation sourceRoot path l l' :
  Permutation l l' ->
  Permutation (sourcesThrough sourceRoot path l) (sourcesThrough sourceRoot path l').
Proof.
  unfold sourcesThrough. induction 1 as [|x l l' _ IH|x y l|l l' l'' _ IH1 _ IH2]; simpl.
  - constructor.
  - destruct (isPrefix path _); simpl; [now constructor | exact IH].
  - destruct (isPrefix path (sourcePathSegments sourceRoot (sourceOrUnmapped (fst y))));
      destruct (isPrefix path (sourcePathSegments sourceRoot (sourceOrUnmapped (fst x))));
      simpl; try reflexivity. constructor.
  - now transitivity (map snd
      (List.filter (fun entry =>
                 isPrefix path (sourcePathSegments sourceRoot (sourceOrUnmapped (fst entry))))
         l')).
Qed.

Lemma sumZ_Permutation l l' : Permutation l l' -> sumZ l = sumZ l'.
Proof. induction 1; simpl; lia. Qed.

Lemma existsb_Permutation {A} (f : A -> bool) l l' :
  Permutation l l' -> existsb f l = existsb f l'.
Proof.
  induction 1 as [|x l l' _ IH|x y l|l l' l'' _ IH1 _ IH2]; simpl;
    [reflexivity | now rewrite IH | | congruence].
  now destruct (f x), (f y).
Qed.

(** X3: the order in which the mapping lists its sources does not matter
    for what is added up: after any reordering the tree built by path
    insertion has a node at the same positions, with the same
    [resourceBytes] and [unusedBytes]. *)
Theorem aggregation_order_independent sourceRoot sourcesData sourcesData' path n :
  Permutation sourcesData sourcesData' ->
  nodeAt path (buildTree sourceRoot sourcesData) = Some n ->
  exists n',
    nodeAt path (buildTree sourceRoot sourcesData') = Some n' /\
    resourceBytes n' = resourceBytes n /\
    unusedBytes n' = unusedBytes n.
Proof.
  intros Hperm Hat.
  assert (Hex : exists n', nodeAt path (buildTree sourceRoot sourcesData') = Some n').
  { destruct (Repr_nodeAt_entry _ _ _ _ (buildTree_Repr sourceRoot sourcesData) Hat)
      as [-> | (rest & data & Hin)]; [now eexists |].
    apply (Repr_nodeAt_exists _ _ path rest data (buildTree_Repr sourceRoot sourcesData')).
    unfold entriesOf in *. apply in_map_iff in Hin as (entry & Heq & Hin).
    apply in_map_iff. exists entry. split; [exact Heq |].
    now apply (Permutation_in _ Hperm). }
  destruct Hex as [n' Hat']. exists n'. split; [exact Hat' |].
  apply (Repr_nodeAt path _ _ _ (buildTree_Repr sourceRoot sourcesData)) in Hat.
  apply (Repr_nodeAt path _ _ _ (buildTree_Repr sourceRoot sourcesData')) in Hat'.
  apply Repr_elim in Hat as (Hrb & Hub & _). apply Repr_elim in Hat' as (Hrb' & Hub' & _).
  pose proof (sourcesThrough_Permutation sourceRoot path _ _ Hperm) as HP.
  rewrite Hrb, Hub, Hrb', Hub', !sumResource_data, !unusedOf_data, !belowPath_sources.
  unfold unusedTotal.
  rewrite (existsb_Permutation hasUnused _ _ HP).
  rewrite (sumZ_Permutation _ _ (Permutation_map sd_resourceBytes HP)).
  rewrite (sumZ_Permutation _ _ (Permutation_map unusedValue HP)). auto.
Qed.

Lemma aggregation_order_independent_witness :
  exists n',
    nodeAt ["a"] (buildTree "" (rev twoFiles)) = Some n' /\
    resourceBytes n' = 150 /\
    unusedBytes n' = Some 30.
Proof.
  apply (aggregation_order_independent "" twoFiles (rev twoFiles) ["a"]
           (mkNode "a" 150 (Some 30) None
              (Some [mkNode "b.js" 100 (Some 30) None None;
                     mkNode "c.js" 50 None None None]))).
  - apply Permutation_rev.
  - reflexivity.
Defined.

(** ** The shape of the trees *)

Lemma nodes_self t : In t (nodes t).
Proof. destruct t; now left. Qed.

Lemma nodes_trans t : forall n x, In n (nodes t) -> In x (nodes n) -> In x (nodes t).
Proof.
  induction t as [? ? ? ? | ? ? ? ? kids IH] using Node_ind'; intros n x Hn Hx.
  - destruct Hn as [<- | []]. exact Hx.
  - cbn [nodes children] in Hn. destruct Hn as [<- | Hn]; [exact Hx |].
    apply in_flat_map in Hn as (k & Hk & Hn). rewrite List.Forall_forall in IH.
    eapply nodes_child; [reflexivity | exact Hk | exact (IH k Hk n x Hn Hx)].
Qed.

Lemma buildTree_node_Repr sourceRoot sourcesData n :
  In n (nodes (buildTree sourceRoot sourcesData)) ->
  exists path,
    nodeAt path (buildTree sourceRoot sourcesData) = Some n /\
    Repr n (belowPath path (entriesOf sourceRoot sourcesData)).
Proof.
  intros Hn. pose proof (buildTree_Repr sourceRoot sourcesData) as HR.
  destruct (Repr_nodes_nodeAt _ _ _ HR Hn) as [path Hat].
  exists path. split; [exact Hat | exact (Repr_nodeAt path _ _ _ HR Hat)].
Qed.

(** X4: in the tree built by path insertion no two children of a node have
    the same name: a segment is looked up before a child is created for
    it. *)
Theorem buildTree_sibling_names_distinct sourceRoot sourcesData :
  Forall (fun n => List.NoDup (map name (default [] (children n))))
    (nodes (buildTree sourceRoot sourcesData)).
Proof.
  apply List.Forall_forall. intros n Hn.
  destruct (buildTree_node_Repr _ _ _ Hn) as (path & _ & HR).
  apply (Repr_kids _ _ HR).
Qed.

Lemma collapseFrom_children_nonempty cur :
  (forall n, In n (nodes cur) -> children n <> Some []) ->
  forall nm rb ub dup, children (collapseFrom nm rb ub dup cur) <> Some [].
Proof.
  induction cur as [? ? ? ? | ? ? ? ? kids IH] using Node_ind'; intros Hall nm' rb' ub' dup'.
  - discriminate.
  - destruct kids as [|k1 [|k2 ks]].
    + exfalso. apply (Hall _ (nodes_self _)). reflexivity.
    + inversion IH as [|? ? IHk _]; subst.
      rewrite (collapseFrom_one _ _ _ _ _ k1) by reflexivity. apply IHk.
      intros n Hn. apply Hall. eapply nodes_child; [reflexivity | now left | exact Hn].
    + rewrite (collapseFrom_many _ _ _ _ _ (k1 :: k2 :: ks)) by (simpl; congruence).
      discriminate.
Qed.

(** X5: every node of the tree returned by [prepareTreemapNodes] is a leaf
    without [children] field or has at least two children; the field never
    holds an empty list or a single child. *)
Theorem prepareTreemapNodes_leaf_or_branching sourceRoot sourcesData :
  Forall (fun m => children m = None \/ (2 <= childCount m)%nat)
    (nodes (prepareTreemapNodes sourceRoot sourcesData)).
Proof.
  apply List.Forall_forall. intros m Hm.
  pose proof (collapseFrom_no_single _ _ _ _ _ m Hm) as Hone.
  apply collapseAll_nodes in Hm as (n & Hn & ->).
  assert (Hne : children (collapseAll n) <> Some []).
  { apply collapseFrom_children_nonempty. intros x Hx.
    pose proof (nodes_trans _ _ _ Hn Hx) as Hx'.
    destruct (buildTree_node_Repr _ _ _ Hx') as (path & _ & HR).
    apply Repr_elim in HR as (_ & _ & _ & H).
    destruct (children x) as [kids|]; [| discriminate].
    destruct H as (Hkids & _). congruence. }
  unfold childCount in *. destruct (children (collapseAll n)) as [[|k1 [|k2 ks]]|];
    simpl in *; auto; try congruence. right. lia.
Qed.

Lemma splitFrom_noSlash s : forall afterSlash,
  Forall (fun segment => noSlash segment = true) (splitFrom afterSlash s).
Proof.
  induction s as [|c s IH]; intros afterSlash; simpl; [repeat constructor |].
  destruct (isSlash c) eqn:Hc.
  - destruct afterSlash; [apply IH | constructor; [reflexivity | apply IH]].
  - specialize (IH false). destruct (splitFrom false s) as [|segment rest].
    + repeat constructor. simpl. now rewrite Hc.
    + inversion IH; subst. constructor; [| assumption]. simpl. now rewrite Hc.
Qed.

(** X6: the segments cut by [split(/\/+/)] hold no slash, so in the tree
    built by path insertion the name of every child holds no slash; the
    slashes of the returned names are those that [collapseAll] joins with. *)
Theorem buildTree_names_without_slash sourceRoot sourcesData :
  Forall (fun n => Forall (fun k => noSlash (name k) = true) (default [] (children n)))
    (nodes (buildTree sourceRoot sourcesData)).
Proof.
  apply List.Forall_forall. intros n Hn. apply List.Forall_forall. intros k Hk.
  destruct (buildTree_node_Repr _ _ _ Hn) as (path & _ & HR).
  destruct (Repr_kids _ _ HR) as (_ & _ & Hkid). destruct (Hkid k Hk) as [Hne _].
  destruct (below (name k) _) as [|[rest data] B] eqn:HB; [congruence |].
  assert (Hin : In (rest, data)
                  (below (name k) (belowPath path (entriesOf sourceRoot sourcesData))))
    by (rewrite HB; now left).
  apply in_below, in_belowPath in Hin. unfold entriesOf in Hin.
  apply in_map_iff in Hin as (entry & Heq & _). unfold entryOf in Heq.
  inversion Heq as [[Hsegs Hdata]].
  pose proof (splitFrom_noSlash
                (replace (sourceOrUnmapped (fst entry)) sourceRoot "") false) as Hall.
  unfold sourcePathSegments, split in Hsegs. rewrite Hsegs in Hall.
  apply Forall_app in Hall as [_ Hall]. now inversion Hall.
Qed.

(** ** Bounds *)

Lemma sumZ_nonneg l : Forall (fun x => 0 <= x) l -> 0 <= sumZ l.
Proof. induction 1; simpl; lia. Qed.

Lemma sumZ_filter_le {A} (f : A -> Z) (keep : A -> bool) l :
  Forall (fun x => 0 <= f x) l ->
  0 <= sumZ (map f (List.filter keep l)) <= sumZ (map f l).
Proof.
  induction 1 as [|x l Hx _ IH]; simpl; [lia |].
  destruct (keep x); simpl; lia.
Qed.

(** X7: when no source has a negative [resourceBytes], every node of the
    returned tree has a [resourceBytes] between 0 and the one of the
    root. *)
Theorem prepareTreemapNodes_bytes_bounded sourceRoot sourcesData :
  Forall (fun entry => 0 <= sd_resourceBytes (snd entry)) sourcesData ->
  Forall (fun m =>
            0 <= resourceBytes m <= resourceBytes (prepareTreemapNodes sourceRoot sourcesData))
    (nodes (prepareTreemapNodes sourceRoot sourcesData)).
Proof.
  intros Hpos. apply List.Forall_forall. intros m Hm.
  destruct (prepareTreemapNodes_origin _ _ _ Hm) as (path & n & Hat & ->).
  unfold prepareTreemapNodes.
  destruct (collapseAll_fields n) as (-> & _).
  destruct (collapseAll_fields (buildTree sourceRoot sourcesData)) as (-> & _).
  pose proof (buildTree_Repr sourceRoot sourcesData) as HR.
  pose proof (Repr_elim _ _ (Repr_nodeAt path _ _ _ HR Hat)) as (-> & _).
  pose proof (Repr_elim _ _ HR) as (-> & _).
  rewrite !sumResource_data, belowPath_sources. unfold sourcesThrough, entriesOf.
  rewrite !map_map. simpl.
  apply (sumZ_filter_le (fun entry => sd_resourceBytes (snd entry))). exact Hpos.
Qed.

Lemma prepareTreemapNodes_bytes_bounded_witness :
  Forall (fun m => 0 <= resourceBytes m <= resourceBytes (prepareTreemapNodes "" twoFiles))
    (nodes (prepareTreemapNodes "" twoFiles)).
Proof. apply prepareTreemapNodes_bytes_bounded. repeat constructor; simpl; lia. Defined.

(** ** Duplicate keys *)

(** X8: whatever the mapping, [prepareTreemapNodes] invents no duplicate
    key: a key carried by a node of the returned tree is the [duplicate] of
    a source whose path ends at the node it comes from. *)
Theorem prepareTreemapNodes_duplicate_from_source sourceRoot sourcesData m key :
  In m (nodes (prepareTreemapNodes sourceRoot sourcesData)) ->
  duplicate m = Some key ->
  exists source data n,
    In (source, data) sourcesData /\
    sd_duplicate data = Some key /\
    nodeAt (sourcePathSegments sourceRoot (sourceOrUnmapped source))
      (buildTree sourceRoot sourcesData) = Some n /\
    m = collapseAll n.
Proof.
  intros Hm Hdup.
  destruct (prepareTreemapNodes_origin _ _ _ Hm) as (path & n & Hat & ->).
  pose proof (Repr_nodeAt path _ _ _ (buildTree_Repr sourceRoot sourcesData) Hat) as HR.
  destruct (collapseAll_fields n) as (_ & _ & Hd). rewrite Hd in Hdup.
  pose proof (Repr_elim _ _ HR) as (_ & _ & HdupOf & _). rewrite HdupOf in Hdup.
  apply dupOf_Some in Hdup as (data & Hin & Hkey).
  apply in_belowPath_source in Hin as (source & Hin & Hsegs).
  exists source, data, n. rewrite Hsegs, app_nil_r. auto.
Qed.

Lemma prepareTreemapNodes_duplicate_from_source_witness :
  exists source data n,
    In (source, data) duplicateDirectory /\
    sd_duplicate data = Some "k" /\
    nodeAt (sourcePathSegments "" (sourceOrUnmapped source))
      (buildTree "" duplicateDirectory) = Some n /\
    mkNode "a" 7 None (Some "k")
      (Some [mkNode "b" 2 None None None; mkNode "c" 4 None None None]) = collapseAll n.
Proof.
  apply (prepareTreemapNodes_duplicate_from_source "" duplicateDirectory
           (mkNode "a" 7 None (Some "k")
              (Some [mkNode "b" 2 None None None; mkNode "c" 4 None None None])) "k").
  - vm_compute. auto.
  - reflexivity.
Defined.

Lemma below_singleton_path path : forall data,
  belowPath path [(path, data)] = [([], data)].
Proof.
  induction path as [|segment path IH]; intros data; simpl; [reflexivity |].
  now rewrite String.eqb_refl.
Qed.

Lemma belowPath_app path : forall E E',
  belowPath path (E ++ E') = belowPath path E ++ belowPath path E'.
Proof.
  induction path as [|segment path IH]; intros E E'; simpl; [reflexivity |].
  now rewrite below_app, IH.
Qed.

Lemma fold_endDuplicate_keep E : forall cur,
  (forall data, In ([], data) E -> sd_duplicate data = None) ->
  fold_left (fun cur e => endDuplicate e cur) E cur = cur.
Proof.
  induction E as [|[segments data] E IH]; intros cur Hnone; simpl; [reflexivity |].
  rewrite IH by (intros d Hd; apply Hnone; now right).
  unfold endDuplicate; simpl. destruct segments; [| reflexivity].
  now rewrite (Hnone data (or_introl eq_refl)).
Qed.

(** X9: when several sources end at the same node, the last one in the
    mapping that has a [duplicate] decides: a source with a key, followed
    only by sources that split into other segments or have no key, leaves
    its key on the node where its path ends. *)
Theorem buildTree_last_duplicate_wins sourceRoot before source data after key :
  sd_duplicate data = Some key ->
  (forall entry, In entry after ->
     sourcePathSegments sourceRoot (sourceOrUnmapped (fst entry))
       = sourcePathSegments sourceRoot (sourceOrUnmapped source) ->
     sd_duplicate (snd entry) = None) ->
  exists n,
    nodeAt (sourcePathSegments sourceRoot (sourceOrUnmapped source))
      (buildTree sourceRoot (before ++ (source, data) :: after)) = Some n /\
    duplicate n = Some key.
Proof.
  intros Hkey Hafter.
  set (path := sourcePathSegments sourceRoot (sourceOrUnmapped source)) in *.
  set (sourcesData := before ++ (source, data) :: after).
  pose proof (buildTree_Repr sourceRoot sourcesData) as HR.
  assert (Hin : In (path ++ [], data) (entriesOf sourceRoot sourcesData)).
  { rewrite app_nil_r. apply in_map_iff. exists (source, data).
    split; [reflexivity |]. apply in_app_iff. right. now left. }
  destruct (Repr_nodeAt_exists _ _ _ _ _ HR Hin) as [n Hat].
  exists n. split; [exact Hat |].
  apply (Repr_nodeAt path _ _ _ HR) in Hat. apply Repr_elim in Hat as (_ & _ & -> & _).
  unfold sourcesData, entriesOf. rewrite map_app. cbn [map].
  change (entryOf sourceRoot (source, data) :: map (entryOf sourceRoot) after)
    with ([(path, data)] ++ entriesOf sourceRoot after).
  rewrite !belowPath_app, below_singleton_path. unfold dupOf.
  rewrite !fold_left_app. cbn [fold_left]. unfold endDuplicate at 2. cbn [fst snd].
  rewrite Hkey. apply fold_endDuplicate_keep.
  intros d Hd. apply in_belowPath in Hd. rewrite app_nil_r in Hd.
  apply in_map_iff in Hd as (entry & Heq & Hentry). inversion Heq as [[Hsegs Hdata]].
  now apply Hafter.
Qed.

Lemma buildTree_last_duplicate_wins_witness :
  exists n,
    nodeAt (sourcePathSegments "" (sourceOrUnmapped "a/b.js"))
      (buildTree ""
         ([("a//b.js", mkSourceData 1 None (Some "first"))] ++
          ("a/b.js", mkSourceData 2 None (Some "second")) ::
          [("a/c.js", mkSourceData 4 None (Some "other"))])) = Some n /\
    duplicate n = Some "second".
Proof.
  apply buildTree_last_duplicate_wins.
  - reflexivity.
  - intros entry [<- | []] Hsegs. vm_compute in Hsegs. discriminate.
Defined.

(** ** More on chain compression *)

Lemma append_assoc (a b c : string) : (a +:+ b) +:+ c = a +:+ (b +:+ c).
Proof.
  induction a as [|x a IH]; [reflexivity |].
  change (String x ((a +:+ b) +:+ c) = String x (a +:+ (b +:+ c))). now rewrite IH.
Qed.

Lemma join_merged nm child names :
  join ((nm +:+ "/" +:+ child) :: names) = join (nm :: child :: names).
Proof.
  destruct names as [|next names]; [reflexivity |].
  change (join ((nm +:+ "/" +:+ child) :: next :: names))
    with ((nm +:+ "/" +:+ child) +:+ "/" +:+ join (next :: names)).
  change (join (nm :: child :: next :: names))
    with (nm +:+ "/" +:+ (child +:+ "/" +:+ join (next :: names))).
  now rewrite !append_assoc.
Qed.

Lemma collapseFrom_fullPaths cur : forall nm rb ub dup,
  fullPaths (collapseFrom nm rb ub dup cur) =
  map (fun names => join (nm :: names)) (leafPaths cur).
Proof.
  induction cur as [? ? ? ? | ? ? ? ? kids IH] using Node_ind'; intros nm' rb' ub' dup'.
  - reflexivity.
  - destruct kids as [|k1 [|k2 ks]].
    + reflexivity.
    + inversion IH as [|? ? IHk _]; subst.
      rewrite (collapseFrom_one _ _ _ _ _ k1) by reflexivity. rewrite IHk.
      cbn [leafPaths children flat_map]. rewrite app_nil_r, map_map.
      apply map_ext. intros names. apply join_merged.
    + rewrite (collapseFrom_many _ _ _ _ _ (k1 :: k2 :: ks)) by (simpl; congruence).
      unfold fullPaths. cbn [name leafPaths children].
      rewrite !map_flat_map, flat_map_concat_map, map_map, <- flat_map_concat_map.
      apply flat_map_ext_in. intros k Hk. rewrite !map_map.
      rewrite List.Forall_forall in IH.
      pose proof (IH k Hk (name k) (resourceBytes k) (unusedBytes k) (duplicate k)) as Hk'.
      fold (collapseAll k) in Hk'. unfold fullPaths in Hk'.
      transitivity (map (fun full => nm' +:+ "/" +:+ full)
                      (map (fun names => join (name (collapseAll k) :: names))
                         (leafPaths (collapseAll k)))).
      * rewrite map_map. reflexivity.
      * rewrite Hk', map_map. reflexivity.
Qed.

(** X10: for every tree, [collapseAll] keeps the leaves and what their
    names spell: leaf for leaf and in order, the names from the root down
    to the leaf, joined by [/], are the same before and after. *)
Theorem collapseAll_fullPaths (t : Node) :
  fullPaths (collapseAll t) = fullPaths t.
Proof. unfold collapseAll. now rewrite collapseFrom_fullPaths. Qed.

(** X11: the trees that [collapseAll] leaves as they are are exactly the
    trees without a node of exactly one child. *)
Theorem collapseAll_fixed_iff (t : Node) :
  collapseAll t = t <-> Forall (fun m => childCount m <> 1%nat) (nodes t).
Proof.
  rewrite List.Forall_forall. split.
  - intros Heq m Hm. rewrite <- Heq in Hm.
    exact (collapseFrom_no_single t _ _ _ _ m Hm).
  - intros Hall. unfold collapseAll. rewrite collapseFrom_fixed by exact Hall.
    apply node_eta.
Qed.

Lemma append_empty (s : string) : s = s +:+ "".
Proof.
  induction s as [|c s IH]; [reflexivity |].
  change (String c s = String c (s +:+ "")). now rewrite <- IH.
Qed.

Lemma prefix_append (s suffix : string) : String.prefix s (s +:+ suffix) = true.
Proof.
  induction s as [|c s IH]; simpl; [now destruct suffix |].
  destruct (ascii_dec c c); [exact IH | congruence].
Qed.

Lemma collapseFrom_name cur : forall nm rb ub dup,
  exists suffix, name (collapseFrom nm rb ub dup cur) = nm +:+ suffix.
Proof.
  induction cur as [? ? ? ? | ? ? ? ? kids IH] using Node_ind'; intros nm' rb' ub' dup'.
  - exists "". apply append_empty.
  - destruct kids as [|k1 [|k2 ks]].
    + exists "". apply append_empty.
    + inversion IH as [|? ? IHk _]; subst.
      rewrite (collapseFrom_one _ _ _ _ _ k1) by reflexivity.
      destruct (IHk (nm' +:+ "/" +:+ name k1) rb' ub' dup') as [suffix ->].
      exists ("/" +:+ name k1 +:+ suffix). now rewrite !append_assoc.
    + rewrite (collapseFrom_many _ _ _ _ _ (k1 :: k2 :: ks)) by (simpl; congruence).
      exists "". apply append_empty.
Qed.

(** X12: the name of the root returned by [prepareTreemapNodes] starts
    with the source root: compression only appends [/] and child names. *)
Theorem prepareTreemapNodes_name_prefix sourceRoot sourcesData :
  String.prefix sourceRoot (name (prepareTreemapNodes sourceRoot sourcesData)) = true.
Proof.
  unfold prepareTreemapNodes, collapseAll.
  destruct (collapseFrom_name (buildTree sourceRoot sourcesData)
              (name (buildTree sourceRoot sourcesData))
              (resourceBytes (buildTree sourceRoot sourcesData))
              (unusedBytes (buildTree sourceRoot sourcesData))
              (duplicate (buildTree sourceRoot sourcesData))) as [suffix ->].
  rewrite buildTree_name. apply prefix_append.
Qed.

(** ** More on the path of a source *)

(** X13: a source root that is a prefix of the path is what the strip
    removes: putting it back in front of the stripped path gives the path. *)
Theorem strip_prefix_round_trip (sourceRoot source : string) :
  String.prefix sourceRoot source = true ->
  sourceRoot +:+ replace source sourceRoot "" = source.
Proof.
  intros H. rewrite (replace_prefix _ _ H). symmetry. now apply prefix_dropChars.
Qed.

Lemma strip_prefix_round_trip_witness :
  "webpack://" +:+ replace "webpack:///./src/a.js" "webpack://" "" = "webpack:///./src/a.js".
Proof. apply strip_prefix_round_trip. reflexivity. Defined.

Lemma split_noSlash s : noSlash s = true -> split s = [s].
Proof.
  unfold split. induction s as [|c s IH]; simpl; [reflexivity |].
  intros H. apply andb_true_iff in H as [Hc Hs]. apply negb_true_iff in Hc.
  now rewrite Hc, (IH Hs).
Qed.

(** X14: a source whose stripped path holds no slash becomes a direct child
    of the root, named by the whole stripped path. *)
Theorem buildTree_slashless_source_is_child sourceRoot sourcesData source data :
  In (source, data) sourcesData ->
  noSlash (replace (sourceOrUnmapped source) sourceRoot "") = true ->
  exists child,
    In child (default [] (children (buildTree sourceRoot sourcesData))) /\
    name child = replace (sourceOrUnmapped source) sourceRoot "".
Proof.
  intros Hin Hslash.
  pose proof (buildTree_Repr sourceRoot sourcesData) as HR.
  assert (Hentry : In ([replace (sourceOrUnmapped source) sourceRoot ""], data)
                     (entriesOf sourceRoot sourcesData)).
  { apply in_map_iff. exists (source, data). split; [| exact Hin].
    unfold entryOf, sourcePathSegments; simpl. now rewrite (split_noSlash _ Hslash). }
  destruct (Repr_kids _ _ HR) as (_ & Hcov & _).
  apply Hcov, in_map_iff in Hentry as (child & Hname & Hchild). eauto.
Qed.

Lemma buildTree_slashless_source_is_child_witness :
  exists child,
    In child (default [] (children (buildTree "" [("", mkSourceData 3 None None)]))) /\
    name child = replace (sourceOrUnmapped "") "" "".
Proof.
  apply (buildTree_slashless_source_is_child "" _ "" (mkSourceData 3 None None)).
  - now left.
  - reflexivity.
Defined.

(** ** More on makeRootNodes *)

Lemma fold_push_map (f : string -> RootNodeContainer) scriptElements : forall start,
  fold_left
    (fun rootNodeContainers scriptElement =>
       match externalSrc scriptElement with
       | None => rootNodeContainers
       | Some s => rootNodeContainers ++ [f s]
       end)
    scriptElements start
  = start ++ map f (externalSrcs scriptElements).
Proof.
  induction scriptElements as [|el els IH]; intros start; simpl.
  - now rewrite app_nil_r.
  - rewrite IH. destruct (externalSrc el); simpl; [| reflexivity].
    now rewrite <- app_assoc.
Qed.

(** The second loop pushes one container per external script, after the
    container of the inline scripts. *)
Lemma makeRootNodes_eq {ScriptCoverage Duplication : Type}
    (unusedJavascriptSummary : string -> list ScriptCoverage -> Bundle -> Summary)
    (normalizeSource : string -> string)
    (artifacts : Artifacts ScriptCoverage) (bundles : list Bundle)
    (duplicationByPath : gmap string Duplication) :
  makeRootNodes unusedJavascriptSummary normalizeSource artifacts bundles duplicationByPath
  = inlineContainers artifacts ++
    map (rootNodeFor unusedJavascriptSummary normalizeSource artifacts bundles
           duplicationByPath)
      (externalSrcs (ScriptElements artifacts)).
Proof. unfold makeRootNodes. rewrite fold_push_map. reflexivity. Qed.

Lemma rootNodeFor_name {ScriptCoverage Duplication : Type}
    (unusedJavascriptSummary : string -> list ScriptCoverage -> Bundle -> Summary)
    (normalizeSource : string -> string)
    (artifacts : Artifacts ScriptCoverage) (bundles : list Bundle)
    (duplicationByPath : gmap string Duplication) (s : string) :
  rnc_name (rootNodeFor unusedJavascriptSummary normalizeSource artifacts bundles
              duplicationByPath s) = s.
Proof.
  unfold rootNodeFor. destruct (find (bundleOf s) bundles); [| reflexivity].
  destruct (JsUsage artifacts !! s); [| reflexivity].
  destruct (sourcesWastedBytes _); reflexivity.
Qed.

(** X15: [makeRootNodes] returns one container per external script, in
    script order and named by the script's [src], after at most one
    container named by the page URL; bundles, coverage and summaries decide
    the nodes, never the number, names or order of the containers. *)
Theorem makeRootNodes_names {ScriptCoverage Duplication : Type}
    (unusedJavascriptSummary : string -> list ScriptCoverage -> Bundle -> Summary)
    (normalizeSource : string -> string)
    (artifacts : Artifacts ScriptCoverage) (bundles : list Bundle)
    (duplicationByPath : gmap string Duplication) :
  map rnc_name
    (makeRootNodes unusedJavascriptSummary normalizeSource artifacts bundles
       duplicationByPath)
  = (if inlineScriptLength (ScriptElements artifacts) =? 0 then []
     else [URL_finalUrl artifacts])
    ++ externalSrcs (ScriptElements artifacts).
Proof.
  rewrite makeRootNodes_eq, map_app, map_map. f_equal.
  - unfold inlineContainers. now destruct (_ =? 0).
  - rewrite <- (map_id (externalSrcs _)) at 2. apply map_ext.
    intros s. apply rootNodeFor_name.
Qed.

(** The length of the inline content of one script element; 0 for an
    external script. *)
Lemma inlineScriptLength_from scriptElements : forall total,
  fold_left
    (fun total scriptElement =>
       match externalSrc scriptElement with
       | None => total + Z.of_nat (String.length (default "" (content scriptElement)))
       | Some _ => total
       end)
    scriptElements total
  = total +
    sumZ (map (fun scriptElement =>
                 match externalSrc scriptElement with
                 | None => Z.of_nat (String.length (default "" (content scriptElement)))
                 | Some _ => 0
                 end) scriptElements).
Proof.
  induction scriptElements as [|el els IH]; intros total; simpl; [lia |].
  rewrite IH. destruct (externalSrc el); lia.
Qed.

Lemma inlineScriptLength_zero_iff scriptElements :
  inlineScriptLength scriptElements = 0 <->
  forall scriptElement, In scriptElement scriptElements ->
    externalSrc scriptElement = None -> default "" (content scriptElement) = "".
Proof.
  unfold inlineScriptLength. rewrite inlineScriptLength_from.
  induction scriptElements as [|el els IH]; simpl; [split; [intros _ ? [] | reflexivity] |].
  assert (Hpos : 0 <= sumZ (map (fun scriptElement =>
                   match externalSrc scriptElement with
                   | None => Z.of_nat (String.length (default "" (content scriptElement)))
                   | Some _ => 0
                   end) els)).
  { apply sumZ_nonneg, Forall_map, List.Forall_forall. intros x _.
    destruct (externalSrc x); lia. }
  split.
  - intros Hzero x [<- | Hx] Hext.
    + rewrite Hext in Hzero. destruct (default "" (content el)); [reflexivity |].
      simpl in Hzero. lia.
    + apply IH; [| exact Hx | exact Hext]. destruct (externalSrc el); lia.
  - intros Hall.
    pose proof (proj2 IH (fun x Hx => Hall x (or_intror Hx))) as Hrest.
    destruct (externalSrc el) eqn:Hext; [lia |].
    rewrite (Hall el (or_introl eq_refl) Hext). simpl. lia.
Qed.

(** X16: as soon as one script without [src] has content, the first
    container returned stands for the inline scripts: it is named by the
    page URL and its node is a leaf whose [resourceBytes], greater than 0,
    is the total length of the inline content. *)
Theorem makeRootNodes_inline_first {ScriptCoverage Duplication : Type}
    (unusedJavascriptSummary : string -> list ScriptCoverage -> Bundle -> Summary)
    (normalizeSource : string -> string)
    (artifacts : Artifacts ScriptCoverage) (bundles : list Bundle)
    (duplicationByPath : gmap string Duplication) (scriptElement : ScriptElement) :
  In scriptElement (ScriptElements artifacts) ->
  externalSrc scriptElement = None ->
  default "" (content scriptElement) <> "" ->
  0 < inlineScriptLength (ScriptElements artifacts) /\
  hd_error (makeRootNodes unusedJavascriptSummary normalizeSource artifacts bundles
              duplicationByPath)
  = Some (mkRootNodeContainer (URL_finalUrl artifacts)
            (mkNode (URL_finalUrl artifacts)
               (inlineScriptLength (ScriptElements artifacts)) None None None)).
Proof.
  intros Hin Hext Hcontent.
  assert (Hne : inlineScriptLength (ScriptElements artifacts) <> 0).
  { intros Hzero. apply Hcontent.
    exact (proj1 (inlineScriptLength_zero_iff _) Hzero scriptElement Hin Hext). }
  assert (Hpos : 0 <= inlineScriptLength (ScriptElements artifacts)).
  { unfold inlineScriptLength. rewrite inlineScriptLength_from.
    assert (H : 0 <= sumZ (map (fun scriptElement =>
                   match externalSrc scriptElement with
                   | None => Z.of_nat (String.length (default "" (content scriptElement)))
                   | Some _ => 0
                   end) (ScriptElements artifacts))); [| lia].
    apply sumZ_nonneg, Forall_map, List.Forall_forall. intros x _.
    destruct (externalSrc x); lia. }
  split; [lia |]. rewrite makeRootNodes_eq. unfold inlineContainers.
  destruct (Z.eqb_spec (inlineScriptLength (ScriptElements artifacts)) 0); [contradiction |].
  reflexivity.
Qed.

Lemma makeRootNodes_inline_first_witness :
  0 < inlineScriptLength (ScriptElements pageWithOneScript) /\
  hd_error (makeRootNodes (Duplication := unit) (fun _ _ _ => mkSummary 0 0 None)
              (fun source => source) pageWithOneScript [] ∅)
  = Some (mkRootNodeContainer (URL_finalUrl pageWithOneScript)
            (mkNode (URL_finalUrl pageWithOneScript)
               (inlineScriptLength (ScriptElements pageWithOneScript)) None None None)).
Proof.
  apply (makeRootNodes_inline_first (fun _ _ _ => mkSummary 0 0 None)
           (fun source => source) pageWithOneScript [] ∅
           (mkScriptElement None (Some "let x = 1;"))).
  - now left.
  - reflexivity.
  - discriminate.
Defined.

(** X17: when no script without [src] has content, nothing stands for the
    inline scripts: the list returned is exactly the containers of the
    external scripts. *)
Theorem makeRootNodes_no_inline {ScriptCoverage Duplication : Type}
    (unusedJavascriptSummary : string -> list ScriptCoverage -> Bundle -> Summary)
    (normalizeSource : string -> string)
    (artifacts : Artifacts ScriptCoverage) (bundles : list Bundle)
    (duplicationByPath : gmap string Duplication) :
  (forall scriptElement, In scriptElement (ScriptElements artifacts) ->
     externalSrc scriptElement = None -> default "" (content scriptElement) = "") ->
  makeRootNodes unusedJavascriptSummary normalizeSource artifacts bundles duplicationByPath
  = map (rootNodeFor unusedJavascriptSummary normalizeSource artifacts bundles
           duplicationByPath)
      (externalSrcs (ScriptElements artifacts)).
Proof.
  intros Hall. rewrite makeRootNodes_eq. unfold inlineContainers.
  now rewrite (proj2 (inlineScriptLength_zero_iff _) Hall).
Qed.

Lemma makeRootNodes_no_inline_witness :
  makeRootNodes (Duplication := unit) (fun _ _ _ => mkSummary 0 0 None)
    (fun source => source) pageWithBundle [] ∅
  = map (rootNodeFor (Duplication := unit) (fun _ _ _ => mkSummary 0 0 None)
           (fun source => source) pageWithBundle [] ∅)
      (externalSrcs (ScriptElements pageWithBundle)).
Proof.
  apply makeRootNodes_no_inline.
  intros scriptElement [<- | []] Hext. discriminate Hext.
Defined.

Lemma makeRootNodes_In {ScriptCoverage Duplication : Type}
    (unusedJavascriptSummary : string -> list ScriptCoverage -> Bundle -> Summary)
    (normalizeSource : string -> string)
    (artifacts : Artifacts ScriptCoverage) (bundles : list Bundle)
    (duplicationByPath : gmap string Duplication) scriptElement s :
  In scriptElement (ScriptElements artifacts) ->
  src scriptElement = Some s -> s <> "" ->
  In (rootNodeFor unusedJavascriptSummary normalizeSource artifacts bundles
        duplicationByPath s)
     (makeRootNodes unusedJavascriptSummary normalizeSource artifacts bundles
        duplicationByPath).
Proof.
  intros Hin Hsrc Hne. rewrite makeRootNodes_eq. apply in_app_iff. right.
  apply in_map. unfold externalSrcs. apply in_flat_map. exists scriptElement.
  split; [exact Hin |]. unfold externalSrc. rewrite Hsrc.
  destruct (String.eqb_spec s ""); [contradiction | now left].
Qed.

(** X18: for an external script with a bundle and coverage whose summary
    has no per-source breakdown, the list returned holds a container named
    by the [src] whose node is a leaf with the summary's [totalBytes] as
    [resourceBytes] and its [wastedBytes] as [unusedBytes], present even
    when it is 0. *)
Theorem makeRootNodes_aggregate_leaf {ScriptCoverage Duplication : Type}
    (unusedJavascriptSummary : string -> list ScriptCoverage -> Bundle -> Summary)
    (normalizeSource : string -> string)
    (artifacts : Artifacts ScriptCoverage) (bundles : list Bundle)
    (duplicationByPath : gmap string Duplication)
    scriptElement s bundle scriptCoverages :
  In scriptElement (ScriptElements artifacts) ->
  src scriptElement = Some s -> s <> "" ->
  find (bundleOf s) bundles = Some bundle ->
  JsUsage artifacts !! s = Some scriptCoverages ->
  sourcesWastedBytes (unusedJavascriptSummary s scriptCoverages bundle) = None ->
  In (mkRootNodeContainer s
        (mkNode s (totalBytes (unusedJavascriptSummary s scriptCoverages bundle))
           (Some (wastedBytes (unusedJavascriptSummary s scriptCoverages bundle)))
           None None))
     (makeRootNodes unusedJavascriptSummary normalizeSource artifacts bundles
        duplicationByPath).
Proof.
  intros Hin Hsrc Hne Hbundle Husage Hnone.
  pose proof (makeRootNodes_In unusedJavascriptSummary normalizeSource artifacts bundles
                duplicationByPath scriptElement s Hin Hsrc Hne) as H.
  unfold rootNodeFor in H. now rewrite Hbundle, Husage, Hnone in H.
Qed.

Lemma makeRootNodes_aggregate_leaf_witness :
  In (mkRootNodeContainer "https://example.com/app.js"
        (mkNode "https://example.com/app.js" 150 (Some 0) None None))
     (makeRootNodes (Duplication := unit) (fun _ _ _ => mkSummary 150 0 None)
        (fun source => source) pageWithBundle (fst bundleAndCoverage) ∅).
Proof.
  apply (makeRootNodes_aggregate_leaf (fun _ _ _ => mkSummary 150 0 None)
           (fun source => source) pageWithBundle (fst bundleAndCoverage) ∅
           (mkScriptElement (Some "https://example.com/app.js") None)
           "https://example.com/app.js"
           (mkBundle (Some "https://example.com/app.js")
              [("src/a.js", 100); ("src/b.js", 50)] (Some "src"))
           [tt]).
  - now left.
  - reflexivity.
  - discriminate.
  - reflexivity.
  - vm_compute. reflexivity.
  - reflexivity.
Defined.

(** X19: for an external script with a bundle, coverage and a per-source
    breakdown, the list returned holds a container named by the [src] whose
    node holds as [resourceBytes] the sum of the sizes of the bundle's
    files, and whose name starts with the source root of the bundle's map. *)
Theorem makeRootNodes_bundle_total {ScriptCoverage Duplication : Type}
    (unusedJavascriptSummary : string -> list ScriptCoverage -> Bundle -> Summary)
    (normalizeSource : string -> string)
    (artifacts : Artifacts ScriptCoverage) (bundles : list Bundle)
    (duplicationByPath : gmap string Duplication)
    scriptElement s bundle scriptCoverages wasted :
  In scriptElement (ScriptElements artifacts) ->
  src scriptElement = Some s -> s <> "" ->
  find (bundleOf s) bundles = Some bundle ->
  JsUsage artifacts !! s = Some scriptCoverages ->
  sourcesWastedBytes (unusedJavascriptSummary s scriptCoverages bundle) = Some wasted ->
  exists node,
    In (mkRootNodeContainer s node)
       (makeRootNodes unusedJavascriptSummary normalizeSource artifacts bundles
          duplicationByPath) /\
    resourceBytes node = sumZ (map snd (bundle_sizes_files bundle)) /\
    String.prefix (default "" (bundle_rawMap_sourceRoot bundle)) (name node) = true.
Proof.
  intros Hin Hsrc Hne Hbundle Husage Hsome.
  pose proof (makeRootNodes_In unusedJavascriptSummary normalizeSource artifacts bundles
                duplicationByPath scriptElement s Hin Hsrc Hne) as H.
  unfold rootNodeFor in H. rewrite Hbundle, Husage, Hsome in H.
  eexists. split; [exact H |].
  set (sourceRoot := default "" (bundle_rawMap_sourceRoot bundle)).
  set (sourcesData := sourcesDataOf normalizeSource duplicationByPath wasted bundle).
  split.
  - unfold prepareTreemapNodes.
    destruct (collapseAll_fields (buildTree sourceRoot sourcesData)) as (-> & _).
    pose proof (Repr_elim _ _ (buildTree_Repr sourceRoot sourcesData)) as (-> & _).
    unfold sumResource, entriesOf, sourcesData, sourcesDataOf. rewrite !map_map.
    reflexivity.
  - unfold prepareTreemapNodes, collapseAll.
    destruct (collapseFrom_name (buildTree sourceRoot sourcesData)
                (name (buildTree sourceRoot sourcesData))
                (resourceBytes (buildTree sourceRoot sourcesData))
                (unusedBytes (buildTree sourceRoot sourcesData))
                (duplicate (buildTree sourceRoot sourcesData))) as [suffix ->].
    rewrite buildTree_name. apply prefix_append.
Qed.

Lemma makeRootNodes_bundle_total_witness :
  exists node,
    In (mkRootNodeContainer "https://example.com/app.js" node)
       (makeRootNodes (Duplication := unit) (fun _ _ _ => mkSummary 150 0 (Some ∅))
          (fun source => source) pageWithBundle (fst bundleAndCoverage) ∅) /\
    resourceBytes node = sumZ (map snd [("src/a.js", 100); ("src/b.js", 50)]) /\
    String.prefix (default "" (Some "src")) (name node) = true.
Proof.
  apply (makeRootNodes_bundle_total (fun _ _ _ => mkSummary 150 0 (Some ∅))
           (fun source => source) pageWithBundle (fst bundleAndCoverage) ∅
           (mkScriptElement (Some "https://example.com/app.js") None)
           "https://example.com/app.js"
           (mkBundle (Some "https://example.com/app.js")
              [("src/a.js", 100); ("src/b.js", 50)] (Some "src"))
           [tt] ∅).
  - now left.
  - reflexivity.
  - discriminate.
  - reflexivity.
  - vm_compute. reflexivity.
  - reflexivity.
Defined.

(** X20: every duplicate key that appears anywhere in the containers
    returned by [makeRootNodes] is a key of the duplication map. *)
Theorem makeRootNodes_duplicates_known {ScriptCoverage Duplication : Type}
    (unusedJavascriptSummary : string -> list ScriptCoverage -> Bundle -> Summary)
    (normalizeSource : string -> string)
    (artifacts : Artifacts ScriptCoverage) (bundles : list Bundle)
    (duplicationByPath : gmap string Duplication) container m key :
  In container
     (makeRootNodes unusedJavascriptSummary normalizeSource artifacts bundles
        duplicationByPath) ->
  In m (nodes (rnc_node container)) ->
  duplicate m = Some key ->
  is_Some (duplicationByPath !! key).
Proof.
  rewrite makeRootNodes_eq. intros Hc Hm Hdup.
  apply in_app_iff in Hc as [Hc | Hc].
  - unfold inlineContainers in Hc. destruct (_ =? 0); [contradiction |].
    destruct Hc as [<- | []]. destruct Hm as [<- | []]. discriminate.
  - apply in_map_iff in Hc as (s & <- & _). unfold rootNodeFor in Hm.
    destruct (find (bundleOf s) bundles) as [bundle|];
      [| destruct Hm as [<- | []]; discriminate].
    destruct (JsUsage artifacts !! s) as [scriptCoverages|];
      [| destruct Hm as [<- | []]; discriminate].
    destruct (sourcesWastedBytes _) as [wasted|];
      [| destruct Hm as [<- | []]; discriminate].
    cbn [rnc_node] in Hm.
    destruct (prepareTreemapNodes_origin _ _ _ Hm) as (path & n & Hat & ->).
    pose proof (Repr_nodeAt path _ _ _ (buildTree_Repr _ _) Hat) as HR.
    destruct (collapseAll_fields n) as (_ & _ & Hd). rewrite Hd in Hdup.
    pose proof (Repr_elim _ _ HR) as (_ & _ & HdupOf & _). rewrite HdupOf in Hdup.
    apply dupOf_Some in Hdup as (data & Hin & Hkey).
    apply in_belowPath_source in Hin as (source & Hin & _).
    unfold sourcesDataOf in Hin. apply in_map_iff in Hin as (file & Heq & _).
    inversion Heq as [[Hsource Hdata]]. rewrite <- Hdata in Hkey. cbn [sd_duplicate] in Hkey.
    destruct (bool_decide (is_Some (duplicationByPath !! normalizeSource (fst file))))
      eqn:Hdec; [| discriminate].
    inversion Hkey; subst. now apply bool_decide_eq_true in Hdec.
Qed.

Lemma makeRootNodes_duplicates_known_witness :
  is_Some (({["src/a.js" := tt]} : gmap string unit) !! "src/a.js").
Proof.
  apply (makeRootNodes_duplicates_known (fun _ _ _ => mkSummary 150 0 (Some ∅))
           (fun source => source) pageWithBundle (fst bundleAndCoverage)
           {["src/a.js" := tt]}
           (mkRootNodeContainer "https://example.com/app.js"
              (mkNode "src/" 150 None None
                 (Some [mkNode "a.js" 100 None (Some "src/a.js") None;
                        mkNode "b.js" 50 None None None])))
           (mkNode "a.js" 100 None (Some "src/a.js") None) "src/a.js").
  - vm_compute. auto.
  - vm_compute. auto.
  - reflexivity.
Defined.
